(** * enc: passphrase-based streaming file encryption

    A shallow embedding of [boxbuf.go] (the chunked XChaCha20-Poly1305
    writer and reader) and of the file orchestrator ([encryptFile],
    [decryptFile], [generateKey]), followed by the properties of the
    specification that concern them.

    Conventions.
    - A Go [[]byte] is a [list Byte.byte]; a fixed array [[n]byte] is a list
      filled through [copyArray n].
    - [len], indices and byte counts are [nat]; the values of [uint8],
      [uint32] and [uint64] fields are [Z] with the wrap-around written out.
    - A Go call that returns [(n, err)] after mutating its receiver is a
      function to [Call]: either [Return] with the new receiver and the
      optional error, or [Panicked].
    - The cryptographic primitives of golang.org/x/crypto are interfaces
      (type classes) carrying only the functional laws the code relies on. *)

From Stdlib Require Import ZArith Lia String.
From Stdlib.Strings Require Byte.
From stdpp Require Import base option list gmap strings.

Abbreviation byte := Byte.byte.
Abbreviation bytes := (list Byte.byte).

#[global] Instance byte_eq_dec : EqDecision byte := Byte.byte_eq_dec.
#[global] Instance byte_countable : Countable byte :=
  inj_countable Byte.to_N Byte.of_N Byte.of_to_N.

(** ** Machine integers and encoding/binary *)

Definition uint8 (z : Z) : Z := (z mod 2 ^ 8)%Z.

Definition byteOfZ (z : Z) : byte :=
  default Byte.x00 (Byte.of_N (Z.to_N (z mod 256))).

Definition zOfByte (b : byte) : Z := Z.of_N (Byte.to_N b).

(** [binary.LittleEndian] on an unsigned integer of [n] bytes. *)
Fixpoint putUintLE (n : nat) (v : Z) : bytes :=
  match n with
  | O => []
  | S n' => byteOfZ v :: putUintLE n' (v / 256)
  end.

Fixpoint getUintLE (bs : bytes) : Z :=
  match bs with
  | [] => 0
  | b :: rest => zOfByte b + 256 * getUintLE rest
  end.

(** [var a [n]byte; copy(a[:], src)]: the first [n] bytes of [src], the
    array's zero bytes where [src] is shorter. *)
Definition copyArray (n : nat) (src : bytes) : bytes :=
  take n src ++ replicate (n - length src) Byte.x00.

(** ** Errors and call results *)

Inductive error :=
  | EOF                (* io.EOF *)
  | ErrUnexpectedEOF   (* io.ErrUnexpectedEOF *)
  | ErrShortWrite      (* io.ErrShortWrite *)
  | errInvalidWrite    (* io: Write returned impossible count *)
  | errChunkTooLarge   (* errors.New("chunk too large") *)
  | errOpen            (* chacha20poly1305: message authentication failed *)
  | errBadMAC          (* errors.New("authentication failed") *)
  | errEntropy         (* crypto/rand: the entropy source failed *)
  | errGenerateKey.    (* fmt.Errorf("could not generate secret key") *)

#[global] Instance error_eq_dec : EqDecision error.
Proof. solve_decision. Defined.

Inductive Call (A : Type) :=
  | Return (a : A) (err : option error)
  | Panicked (msg : string).
Arguments Return {A} a err.
Arguments Panicked {A} msg.

(** ** Constants *)

(** boxbuf.go: [const maxChunkSize = 16384]. *)
Definition maxChunkSize : nat := Z.to_nat 16384.

(** chacha20poly1305.Overhead, the size of the Poly1305 tag. *)
Definition overhead : nat := 16.

Definition nonceSize : nat := 24.

Definition defaultArgonTime : Z := 4.
Definition defaultArgonMemory : Z := 4000000.
Definition saltSize : nat := 32.
Definition keyLen : nat := 32.
Definition macLen : nat := 32.

(** io.Copy's buffer: 32 KiB. *)
Definition copyBufSize : nat := Z.to_nat 32768.

(** ** Interfaces of the cryptographic libraries *)

(** chacha20poly1305.NewX(key): [Seal(nil, nonce, plaintext, nil)] and
    [Open(nil, nonce, ciphertext, nil)]. [Open] returns the plaintext, which
    is [overhead] bytes shorter than the ciphertext, or fails. *)
Class AEAD := {
  seal : bytes → bytes → bytes → bytes;
  open : bytes → bytes → bytes → option bytes;
  open_seal : ∀ k n p, open k n (seal k n p) = Some p;
  open_length : ∀ k n c p, open k n c = Some p → length c = length p + overhead;
}.

(** blake2b.New512(key): [blake2b512 key m] is [Sum(nil)] after the bytes
    [m] have been written to the hash. *)
Class MAC := {
  blake2b512 : bytes → bytes → bytes;
  blake2b512_length : ∀ k m, length (blake2b512 k m) = 64;
}.

(** The Argon2id function proper, for parameters argon2.IDKey accepts:
    [argon2id password salt time memory threads keyLen] is a key of
    [keyLen] bytes. *)
Class KDF := {
  argon2id : bytes → bytes → Z → Z → Z → nat → bytes;
  argon2id_length : ∀ pw salt time memory threads klen,
    length (argon2id pw salt time memory threads klen) = klen;
}.

(** argon2.IDKey panics on [time < 1] and on [threads < 1]. *)
Definition IDKey `{KDF} (password salt : bytes) (time memory threads : Z)
    (klen : nat) : Call bytes :=
  if decide (time < 1)%Z then Panicked "argon2: number of rounds too small"
  else if decide (threads < 1)%Z then Panicked "argon2: parallelism degree too low"
  else Return (argon2id password salt time memory threads klen) None.

(** ** io.Reader and io.Writer *)

(** [Read r n] is [r.Read(p)] with [len(p) = n]: the new reader and the
    bytes stored in [p[0:read]]. [Write w p] returns the count of bytes
    accepted. *)
Class Reader (R : Type) := Read : R → nat → Call (R * bytes).
Class Writer (W : Type) := Write : W → bytes → Call (W * nat).

(** A bytes.Buffer, a hash state, or a file written sequentially: the bytes
    appended so far. Its Write cannot fail. *)
#[global] Instance buffer_Writer : Writer bytes :=
  λ b p, Return (b ++ p, length p) None.

(** A file (or byte buffer) opened for reading: its content and offset. *)
Record File := { content : bytes; pos : nat }.

Definition remaining (f : File) : bytes := drop (pos f) (content f).

Definition seekTo (f : File) (off : nat) : File :=
  {| content := content f; pos := off |}.

(** One Read of a regular file: all the requested bytes that remain, and
    [(0, io.EOF)] at the end. *)
Definition fileRead (f : File) (n : nat) : Call (File * bytes) :=
  let d := take n (remaining f) in
  if decide (n = 0) then Return (f, []) None
  else if decide (d = []) then Return (f, []) (Some EOF)
  else Return (seekTo f (pos f + length d), d) None.

#[global] Instance file_Reader : Reader File := fileRead.

(** io.ReadFull(f, buf) with [len(buf) = n]: [io.EOF] when no byte could be
    read, [io.ErrUnexpectedEOF] when some but not all; an empty [buf] is
    filled without reading. *)
Definition readFull (f : File) (n : nat) : File * bytes * option error :=
  let d := take n (remaining f) in
  if decide (n = 0) then (f, [], None)
  else if decide (length d = 0) then (f, [], Some EOF)
  else if decide (length d < n) then (seekTo f (pos f + length d), d, Some ErrUnexpectedEOF)
  else (seekTo f (pos f + n), d, None).

(** Writing [p] to a file at its offset: overwrites, and extends at the end. *)
Definition fileWrite (f : File) (p : bytes) : File :=
  {| content := take (pos f) (content f) ++ p ++ drop (pos f + length p) (content f);
     pos := pos f + length p |}.

(** io.Copy(dst, src): Read into a 32 KiB buffer, Write what was read, until
    an error or end of stream. [fuel] bounds the number of Reads; [None]
    means the bound was reached. *)
Fixpoint ioCopy {W R : Type} `{Writer W, Reader R}
    (fuel : nat) (dst : W) (src : R) (written : nat)
    : option (Call (W * R * nat)) :=
  match fuel with
  | O => None
  | S fuel' =>
    match Read src copyBufSize with
    | Panicked m => Some (Panicked m)
    | Return (src', data) er =>
      let continue (dst' : W) (written' : nat) :=
        match er with
        | Some EOF => Some (Return (dst', src', written') None)
        | Some e => Some (Return (dst', src', written') (Some e))
        | None => ioCopy fuel' dst' src' written'
        end in
      if decide (0 < length data) then
        match Write dst data with
        | Panicked m => Some (Panicked m)
        | Return (dst', nw) ew =>
          let '(nw, ew) :=
            if decide (length data < nw)
            then (0, Some (default errInvalidWrite ew)) else (nw, ew) in
          match ew with
          | Some e => Some (Return (dst', src', written + nw) (Some e))
          | None =>
            if decide (length data = nw) then continue dst' (written + nw)
            else Some (Return (dst', src', written + nw) (Some ErrShortWrite))
          end
        end
      else continue dst written
    end
  end.

(** ** boxbuf.go: the streaming encryptor *)

(** [out] is the sink, a byte buffer: every byte written to it so far. Its
    Write cannot fail, so the error returns of [writeChunk] and Write are
    written as in the source but are not taken.
    [rand] is the tape of bytes crypto/rand.Reader delivers to this writer;
    a read beyond its end is a failed entropy read. *)
Module EncWriter.
Record t := mk {
  out : bytes;
  buf : bytes;
  usedNonces : gset bytes;
  secretKey : bytes;
  rand : bytes;
}.
End EncWriter.

Definition NewWriter (secretKey : bytes) (out : bytes) (rand : bytes) : EncWriter.t :=
  {| EncWriter.out := out; EncWriter.buf := [];
     EncWriter.usedNonces := ∅; EncWriter.secretKey := secretKey;
     EncWriter.rand := rand |}.

(** chacha20poly1305.NewX returns an error only for a key that is not 32
    bytes long; [secretKey] is a [[32]byte], so that return is left out. *)
Definition writeChunk `{AEAD} (w : EncWriter.t) : Call EncWriter.t :=
  if decide (length (EncWriter.rand w) < nonceSize)
  then Panicked "could not read entropy for encryption"
  else
    let nonce := take nonceSize (EncWriter.rand w) in
    let rand' := drop nonceSize (EncWriter.rand w) in
    if decide (nonce ∈ EncWriter.usedNonces w) then Panicked "nonce reuse"
    else
      let used := {[nonce]} ∪ EncWriter.usedNonces w in
      let encryptedData := seal (EncWriter.secretKey w) nonce (EncWriter.buf w) in
      let w' (o : bytes) := EncWriter.mk o [] used (EncWriter.secretKey w) rand' in
      match Write (EncWriter.out w) nonce with
      | Panicked m => Panicked m
      | Return (o1, _) (Some e) => Return (w' o1) (Some e)
      | Return (o1, _) None =>
        let chunkSize := Z.of_nat (length encryptedData) in
        match Write o1 (putUintLE 8 chunkSize) with
        | Panicked m => Panicked m
        | Return (o2, _) (Some e) => Return (w' o2) (Some e)
        | Return (o2, _) None =>
          match Write o2 encryptedData with
          | Panicked m => Panicked m
          | Return (o3, _) err => Return (w' o3) err
          end
        end
      end.

Definition appendByte (w : EncWriter.t) (b : byte) : EncWriter.t :=
  EncWriter.mk (EncWriter.out w) (EncWriter.buf w ++ [b])
    (EncWriter.usedNonces w) (EncWriter.secretKey w) (EncWriter.rand w).

(** The [for i, b := range p] loop of Write, from index [i] on. *)
Fixpoint writeLoop `{AEAD} (w : EncWriter.t) (p : bytes) (i : nat)
    : Call (EncWriter.t * nat) :=
  match p with
  | [] => Return (w, i) None
  | b :: p' =>
    if decide (length (EncWriter.buf w) = maxChunkSize) then
      match writeChunk w with
      | Panicked m => Panicked m
      | Return w1 (Some e) => Return (w1, i) (Some e)
      | Return w1 None => writeLoop (appendByte w1 b) p' (S i)
      end
    else writeLoop (appendByte w b) p' (S i)
  end.

Definition EncWriter_Write `{AEAD} (w : EncWriter.t) (p : bytes)
    : Call (EncWriter.t * nat) :=
  match writeLoop w p 0 with
  | Panicked m => Panicked m
  | Return (w1, i) (Some e) => Return (w1, i) (Some e)
  | Return (w1, _) None =>
    match writeChunk w1 with
    | Panicked m => Panicked m
    | Return w2 err => Return (w2, length p) err
    end
  end.

#[global] Instance EncWriter_Writer `{AEAD} : Writer EncWriter.t := EncWriter_Write.

(** ** boxbuf.go: the streaming decryptor *)

Module DecReader.
Record t := mk {
  in_ : File;
  buf : bytes;
  index : nat;
  secretKey : bytes;
}.
End DecReader.

Definition NewReader (secretKey : bytes) (input : File) : DecReader.t :=
  {| DecReader.in_ := input; DecReader.buf := []; DecReader.index := 0;
     DecReader.secretKey := secretKey |}.

(** On an error the bytes already consumed from [in_] stay consumed; [buf]
    and [index] are as before. The error return of chacha20poly1305.NewX is
    left out as in [writeChunk]. *)
Definition nextChunk `{AEAD} (b : DecReader.t) : DecReader.t * option error :=
  let at_ (f : File) :=
    DecReader.mk f (DecReader.buf b) (DecReader.index b) (DecReader.secretKey b) in
  let '(f1, nonce, err) := readFull (DecReader.in_ b) nonceSize in
  match err with
  | Some e => (at_ f1, Some e)
  | None =>
    let '(f2, sizeBytes, err) := readFull f1 8 in
    match err with
    | Some e => (at_ f2, Some e)
    | None =>
      let chunkSize := getUintLE sizeBytes in
      if decide (Z.of_nat (maxChunkSize + 16) < chunkSize)%Z
      then (at_ f2, Some errChunkTooLarge)
      else
        let '(f3, chunkData, err) := readFull f2 (Z.to_nat chunkSize) in
        match err with
        | Some e => (at_ f3, Some e)
        | None =>
          match open (DecReader.secretKey b) nonce chunkData with
          | None => (at_ f3, Some errOpen)
          | Some decryptedBytes =>
            (DecReader.mk f3 decryptedBytes (DecReader.index b)
               (DecReader.secretKey b), None)
          end
        end
    end
  end.

(** The [for i := range p] loop of Read with [n] positions of [p] left;
    [got] is what has been stored in [p] so far. Indexing [buf] out of
    range panics. *)
Fixpoint readLoop `{AEAD} (n : nat) (b : DecReader.t) (got : bytes)
    : Call (DecReader.t * bytes) :=
  match n with
  | O => Return (b, got) None
  | S n' =>
    let '(b1, err) :=
      if decide (DecReader.index b = 0) then nextChunk b else (b, None) in
    match err with
    | Some e => Return (b1, got) (Some e)
    | None =>
      match DecReader.buf b1 !! DecReader.index b1 with
      | None => Panicked "index out of range"
      | Some x =>
        let i := S (DecReader.index b1) in
        let i' := if decide (length (DecReader.buf b1) ≤ i) then 0 else i in
        readLoop n'
          (DecReader.mk (DecReader.in_ b1) (DecReader.buf b1) i'
             (DecReader.secretKey b1))
          (got ++ [x])
      end
    end
  end.

Definition DecReader_Read `{AEAD} (b : DecReader.t) (n : nat)
    : Call (DecReader.t * bytes) :=
  readLoop n b [].

#[global] Instance DecReader_Reader `{AEAD} : Reader DecReader.t := DecReader_Read.

(** ** The file orchestrator *)

Record fileHeader := {
  Salt : bytes;        (* [32]byte *)
  ArgonTime : Z;       (* uint32 *)
  ArgonMemory : Z;     (* uint32 *)
  ArgonLanes : Z;      (* uint8 *)
  Tag : bytes;         (* [64]byte *)
}.

(** The values a [fileHeader] can hold in Go. *)
Definition header_wf (h : fileHeader) : Prop :=
  length (Salt h) = 32 ∧ (0 ≤ ArgonTime h < 2 ^ 32)%Z ∧
  (0 ≤ ArgonMemory h < 2 ^ 32)%Z ∧ (0 ≤ ArgonLanes h < 2 ^ 8)%Z ∧
  length (Tag h) = 64.

(** binary.Write(w, binary.LittleEndian, header): the fields in order of
    declaration, without padding. *)
Definition encodeHeader (h : fileHeader) : bytes :=
  Salt h ++ putUintLE 4 (ArgonTime h) ++ putUintLE 4 (ArgonMemory h)
    ++ putUintLE 1 (ArgonLanes h) ++ Tag h.

(** binary.Size(fileHeader{}). *)
Definition headerSize : nat := 32 + 4 + 4 + 1 + 64.

(** binary.Read(r, binary.LittleEndian, &header) on the [headerSize] bytes
    read. *)
Definition decodeHeader (bs : bytes) : fileHeader :=
  {| Salt := take 32 bs;
     ArgonTime := getUintLE (take 4 (drop 32 bs));
     ArgonMemory := getUintLE (take 4 (drop 36 bs));
     ArgonLanes := getUintLE (take 1 (drop 40 bs));
     Tag := take 64 (drop 41 bs) |}.

(** [uint8(runtime.NumCPU() * 2)]. *)
Definition defaultArgonLanes (numCPU : Z) : Z := uint8 (numCPU * 2).

(** [rand] is the entropy tape, [numCPU] is runtime.NumCPU(). The result
    carries the rest of the tape. *)
Definition generateKey `{KDF} (passphrase : bytes) (rand : bytes) (numCPU : Z)
    : Call (bytes * fileHeader * bytes) :=
  let zero := {| Salt := replicate 32 Byte.x00; ArgonTime := 0; ArgonMemory := 0;
                 ArgonLanes := 0; Tag := replicate 64 Byte.x00 |} in
  if decide (length rand < saltSize) then Return ([], zero, rand) (Some errEntropy)
  else
    let salt := take saltSize rand in
    let header := {| Salt := salt;
                     ArgonTime := defaultArgonTime;
                     ArgonMemory := defaultArgonMemory;
                     ArgonLanes := defaultArgonLanes numCPU;
                     Tag := replicate 64 Byte.x00 |} in
    match IDKey passphrase (Salt header) (ArgonTime header) (ArgonMemory header)
            (ArgonLanes header) (keyLen + macLen) with
    | Panicked m => Panicked m
    | Return skb _ => Return (skb, header, drop saltSize rand) None
    end.

(** What a file operation leaves behind. [Renamed final]: it returned nil
    and <output> holds [final]. [Failed e temp]: it returned [e]; <output>
    was not written, and [temp] is what <output>.temp held when the deferred
    os.Remove deleted it. [Crashed]: a panic. The file system itself does
    not fail. *)
Inductive FileResult :=
  | Renamed (final : bytes)
  | Failed (e : error) (temp : bytes)
  | Crashed (msg : string).

Definition setTag (h : fileHeader) (mac : bytes) : fileHeader :=
  {| Salt := Salt h; ArgonTime := ArgonTime h; ArgonMemory := ArgonMemory h;
     ArgonLanes := ArgonLanes h; Tag := mac |}.

(** [input] is the content of the input file. The sink of the EncWriter is
    io.MultiWriter(hash, output): both receive the bytes of [EncWriter.out]
    in the same order, the file after the header it already holds. *)
Definition encryptFile `{AEAD, MAC, KDF} (passphrase input rand : bytes) (numCPU : Z)
    : option FileResult :=
  let output := {| content := []; pos := 0 |} in
  let input := {| content := input; pos := 0 |} in
  match generateKey passphrase rand numCPU with
  | Panicked m => Some (Crashed m)
  | Return _ (Some _) => Some (Failed errGenerateKey (content output))
  | Return (skb, header, rand') None =>
    let sk := copyArray 32 (take 32 skb) in
    let macKey := copyArray 32 (drop 32 skb) in
    let output := fileWrite output (encodeHeader header) in
    let encWriter := NewWriter sk [] rand' in
    match ioCopy (S (length (content input))) encWriter input 0 with
    | None => None
    | Some (Panicked m) => Some (Crashed m)
    | Some (Return (encWriter, _, _) (Some e)) =>
      Some (Failed e (content (fileWrite output (EncWriter.out encWriter))))
    | Some (Return (encWriter, _, _) None) =>
      let output := fileWrite output (EncWriter.out encWriter) in
      let mac := copyArray 64 (blake2b512 macKey (EncWriter.out encWriter)) in
      let header := setTag header mac in
      let output := seekTo output 0 in
      let output := fileWrite output (encodeHeader header) in
      Some (Renamed (content output))
    end
  end.

Definition decryptFile `{AEAD, MAC, KDF} (passphrase input : bytes)
    : option FileResult :=
  let fuel := S (length input) in
  let input := {| content := input; pos := 0 |} in
  let '(input, headerBytes, err) := readFull input headerSize in
  match err with
  | Some e => Some (Failed e [])
  | None =>
    let header := decodeHeader headerBytes in
    let ciphertextOffset := pos input in
    match IDKey passphrase (Salt header) (ArgonTime header) (ArgonMemory header)
            (ArgonLanes header) (keyLen + macLen) with
    | Panicked m => Some (Crashed m)
    | Return skb _ =>
      let sk := copyArray 32 (take 32 skb) in
      let macKey := copyArray 32 (drop 32 skb) in
      match ioCopy fuel ([] : bytes) input 0 with
      | None => None
      | Some (Panicked m) => Some (Crashed m)
      | Some (Return _ (Some e)) => Some (Failed e [])
      | Some (Return (hashed, input, _) None) =>
        let mac := copyArray 64 (blake2b512 macKey hashed) in
        if decide (mac = Tag header) then
          let input := seekTo input ciphertextOffset in
          let inputReader := NewReader sk input in
          match ioCopy fuel ([] : bytes) inputReader 0 with
          | None => None
          | Some (Panicked m) => Some (Crashed m)
          | Some (Return (output, _, _) (Some e)) => Some (Failed e output)
          | Some (Return (output, _, _) None) => Some (Renamed output)
          end
        else Some (Failed errBadMAC [])
      end
    end
  end.

(** ** The chunk format, for the statements

    One frame on the wire: nonce, length of the AEAD output as a
    little-endian uint64, AEAD output. *)
Definition frame `{AEAD} (sk nonce plaintext : bytes) : bytes :=
  let encryptedData := seal sk nonce plaintext in
  nonce ++ putUintLE 8 (Z.of_nat (length encryptedData)) ++ encryptedData.

(** A sequence of frames, each given by its nonce and its plaintext. *)
Definition frames `{AEAD} (sk : bytes) (cs : list (bytes * bytes)) : bytes :=
  mjoin ((λ c, frame sk c.1 c.2) <$> cs).

(** Scanning a ciphertext region frame by frame, as a reader of the format
    does: the nonce and the AEAD output of every frame, or [None] when the
    region does not end at a frame boundary. [fuel] bounds the number of
    frames. *)
Fixpoint scanFrames (fuel : nat) (region : bytes) : option (list (bytes * bytes)) :=
  match region with
  | [] => Some []
  | _ :: _ =>
    match fuel with
    | O => None
    | S fuel' =>
      let nonce := take nonceSize region in
      let sizeBytes := take 8 (drop nonceSize region) in
      let chunkSize := Z.to_nat (getUintLE sizeBytes) in
      let chunk := take chunkSize (drop (nonceSize + 8) region) in
      if decide (length nonce = nonceSize ∧ length sizeBytes = 8 ∧ length chunk = chunkSize)
      then (λ fs, (nonce, chunk) :: fs) <$>
             scanFrames fuel' (drop (nonceSize + 8 + chunkSize) region)
      else None
    end
  end.

(** [emitted w w' cs]: from [w] to [w'] the writer put exactly the frames
    [cs] on its sink, in this order, each with a nonce drawn from the
    entropy tape and recorded in [usedNonces]. *)
Definition emitted `{AEAD} (w w' : EncWriter.t) (cs : list (bytes * bytes)) : Prop :=
  EncWriter.out w' = EncWriter.out w ++ frames (EncWriter.secretKey w) cs ∧
  EncWriter.secretKey w' = EncWriter.secretKey w ∧
  EncWriter.rand w = mjoin cs.*1 ++ EncWriter.rand w' ∧
  Forall (λ n, length n = nonceSize) cs.*1 ∧
  NoDup cs.*1 ∧
  (∀ n, n ∈ cs.*1 → n ∉ EncWriter.usedNonces w) ∧
  EncWriter.usedNonces w' = list_to_set cs.*1 ∪ EncWriter.usedNonces w.

(** A caller making the Write calls [ps] one after the other, stopping at
    the first error. *)
Fixpoint writeAll `{AEAD} (w : EncWriter.t) (ps : list bytes) : Call EncWriter.t :=
  match ps with
  | [] => Return w None
  | p :: ps' =>
    match EncWriter_Write w p with
    | Panicked m => Panicked m
    | Return (w1, _) (Some e) => Return w1 (Some e)
    | Return (w1, _) None => writeAll w1 ps'
    end
  end.

(** The states an encryptor passes through: the new writer, the state
    after a Write, and the state after any number of iterations of the loop
    of a Write in progress. *)
Inductive enc_reachable `{AEAD} (w0 : EncWriter.t) : EncWriter.t → Prop :=
  | enc_new : enc_reachable w0 w0
  | enc_iterations w p i w' err :
      enc_reachable w0 w → writeLoop w p 0 = Return (w', i) err →
      enc_reachable w0 w'
  | enc_write w p n w' err :
      enc_reachable w0 w → EncWriter_Write w p = Return (w', n) err →
      enc_reachable w0 w'.

(** The states a decryptor passes through: the new reader and the state
    after any Read, failed or not. A Read of [k] bytes passes through the
    states of the Reads of fewer bytes. *)
Inductive dec_reachable `{AEAD} (b0 : DecReader.t) : DecReader.t → Prop :=
  | dec_new : dec_reachable b0 b0
  | dec_read b n b' data err :
      dec_reachable b0 b → DecReader_Read b n = Return (b', data) err →
      dec_reachable b0 b'.

(** The part of the current chunk a decryptor has not served yet. *)
Definition pending (b : DecReader.t) : bytes :=
  if decide (DecReader.index b = 0) then []
  else drop (DecReader.index b) (DecReader.buf b).

(** [reads_frames sk b cs]: the decryptor holds the key [sk], is inside its
    current chunk (or between chunks), and what is left of its source is
    the well-formed frames [cs]. *)
Definition reads_frames `{AEAD} (sk : bytes) (b : DecReader.t)
    (cs : list (bytes * bytes)) : Prop :=
  DecReader.secretKey b = sk ∧
  remaining (DecReader.in_ b) = frames sk cs ∧
  Forall (λ n, length n = nonceSize) cs.*1 ∧
  Forall (λ c, 1 ≤ length c ≤ maxChunkSize) cs.*2 ∧
  (DecReader.index b = 0 ∨ DecReader.index b < length (DecReader.buf b)).

(** The two keys both file operations cut out of the Argon2id output for
    a header: [sk] for the chunks, [macKey] for the tag. [None] when
    argon2.IDKey panics on the header's parameters. *)
Definition keysOf `{KDF} (passphrase : bytes) (h : fileHeader) : option (bytes * bytes) :=
  match IDKey passphrase (Salt h) (ArgonTime h) (ArgonMemory h) (ArgonLanes h)
          (keyLen + macLen) with
  | Panicked _ => None
  | Return skb _ => Some (copyArray 32 (take 32 skb), copyArray 32 (drop 32 skb))
  end.

(** Tampering with a ciphertext region [C]: one byte replaced by another
    value, or the region cut short. *)
Definition single_byte_mutation (C C' : bytes) : Prop :=
  ∃ i x y, C !! i = Some x ∧ y ≠ x ∧ C' = <[i:=y]> C.

Definition truncation (C C' : bytes) : Prop :=
  ∃ n, n < length C ∧ C' = take n C.

(** The specification's words for the default lanes: twice the CPU count,
    clamped to the range 1..255 of Argon2 parallelism that fits the header's
    uint8. To be compared with [defaultArgonLanes]. *)
Definition clampedLanes (numCPU : Z) : Z := Z.max 1 (Z.min 255 (2 * numCPU)).

(** [fresh_nonces used rand k]: the next [k] draws of a nonce from the
    tape [rand] succeed and give nonces that are not in [used] and differ
    from one another. *)
Fixpoint fresh_nonces (used : gset bytes) (rand : bytes) (k : nat) : Prop :=
  match k with
  | O => True
  | S k' =>
    nonceSize ≤ length rand ∧ (take nonceSize rand ∉ used) ∧
    fresh_nonces ({[take nonceSize rand]} ∪ used) (drop nonceSize rand) k'
  end.

(** As [reads_frames], with the bytes [tail] after the frames [cs]. *)
Definition reads_frames_then `{AEAD} (sk : bytes) (b : DecReader.t)
    (cs : list (bytes * bytes)) (tail : bytes) : Prop :=
  DecReader.secretKey b = sk ∧
  remaining (DecReader.in_ b) = frames sk cs ++ tail ∧
  Forall (λ n, length n = nonceSize) cs.*1 ∧
  Forall (λ c, 1 ≤ length c ≤ maxChunkSize) cs.*2 ∧
  (DecReader.index b = 0 ∨ DecReader.index b < length (DecReader.buf b)).

(** The number of bytes of the current chunk a decryptor can still serve
    without fetching another chunk. *)
Definition unserved (b : DecReader.t) : nat :=
  if decide (DecReader.index b = 0) then 0
  else length (DecReader.buf b) - DecReader.index b.

(** ** The test helper [nonceReuse] *)

(** crypto/sha256: [Sum256 m] is the digest of [m], 32 bytes. *)
Class HASH := {
  Sum256 : bytes → bytes;
  Sum256_length : ∀ m, length (Sum256 m) = 32;
}.

(** How a call of [nonceReuse] ends: with its answer, in [panic(err)], or
    in a panic of the runtime. *)
Inductive Verdict :=
  | Answer (reused : bool)
  | PanicError (e : error)
  | PanicRuntime (msg : string).

(** The loop of [nonceReuse]. [buf] is the bytes.Buffer, whose Read behaves
    like that of a file: up to [len(p)] of the unread bytes, and
    [(0, io.EOF)] when none is left and [p] is not empty. [seenNonces] is
    the map of the SHA-256 sums met so far. [makeLimit] is the largest
    length the runtime accepts in [make([]byte, n)]; up to it the
    allocation is taken to succeed. [fuel] bounds the number of rounds;
    [None] means the bound was reached. *)
Fixpoint nonceReuseLoop `{HASH} (makeLimit : Z) (fuel : nat) (buf : File)
    (seenNonces : gset bytes) : option Verdict :=
  match fuel with
  | O => None
  | S fuel' =>
    match fileRead buf nonceSize with
    | Panicked m => Some (PanicRuntime m)
    | Return _ (Some EOF) => Some (Answer false)
    | Return _ (Some e) => Some (PanicError e)
    | Return (buf1, d) None =>
      let nonce := copyArray nonceSize d in
      let sum := Sum256 nonce in
      if decide (sum ∈ seenNonces) then Some (Answer true)
      else
        let seenNonces := {[sum]} ∪ seenNonces in
        let '(buf2, sizeBytes, err) := readFull buf1 8 in
        match err with
        | Some e => Some (PanicError e)
        | None =>
          let chunkSize := getUintLE sizeBytes in
          if decide (makeLimit < chunkSize)%Z
          then Some (PanicRuntime "makeslice: len out of range")
          else
            match fileRead buf2 (Z.to_nat chunkSize) with
            | Panicked m => Some (PanicRuntime m)
            | Return _ (Some e) => Some (PanicError e)
            | Return (buf3, _) None => nonceReuseLoop makeLimit fuel' buf3 seenNonces
            end
        end
    end
  end.

(** Every round but the last takes at least one byte out of the buffer. *)
Definition nonceReuse `{HASH} (makeLimit : Z) (ciphertext : bytes) : option Verdict :=
  nonceReuseLoop makeLimit (S (length ciphertext)) {| content := ciphertext; pos := 0 |} ∅.

(** ** Reference instances of the interfaces

    Small executable instances that satisfy the interface laws. They are not
    ciphers; they let the code above run on concrete inputs. *)

Definition checksum (bs : bytes) : byte :=
  byteOfZ (foldr (λ b acc, zOfByte b + acc)%Z (Z.of_nat (length bs)) bs).

Definition refSeal (k n p : bytes) : bytes :=
  p ++ replicate overhead (checksum (k ++ n ++ p)).

Definition refOpen (k n c : bytes) : option bytes :=
  if decide (length c < overhead) then None
  else
    let p := take (length c - overhead) c in
    if decide (drop (length c - overhead) c = replicate overhead (checksum (k ++ n ++ p)))
    then Some p else None.

Lemma refOpen_refSeal k n p : refOpen k n (refSeal k n p) = Some p.
Proof.
  unfold refOpen, refSeal.
  rewrite length_app, length_replicate.
  destruct (decide _) as [Hlt|_]; [lia|].
  replace (length p + overhead - overhead) with (length p) by lia.
  rewrite take_app_length, drop_app_length.
  by rewrite decide_True.
Qed.

Lemma refOpen_length k n c p : refOpen k n c = Some p → length c = length p + overhead.
Proof.
  unfold refOpen. intros Hopen.
  destruct (decide (length c < overhead)) as [|Hge]; [done|].
  destruct (decide _); [|done].
  injection Hopen as <-. rewrite length_take. lia.
Qed.

Definition refAEAD : AEAD :=
  {| seal := refSeal; open := refOpen;
     open_seal := refOpen_refSeal; open_length := refOpen_length |}.

Definition refMAC : MAC :=
  {| blake2b512 := λ k m, replicate 64 (checksum (k ++ m));
     blake2b512_length := λ k m, length_replicate 64 (checksum (k ++ m)) |}.

Definition refKDF : KDF :=
  {| argon2id := λ pw salt time memory threads klen,
       replicate klen
         (checksum (pw ++ salt ++ [byteOfZ time; byteOfZ memory; byteOfZ threads]));
     argon2id_length := λ pw salt time memory threads klen,
       length_replicate klen
         (checksum (pw ++ salt ++ [byteOfZ time; byteOfZ memory; byteOfZ threads])) |}.

(** A digest that keeps the first 32 bytes of the message. *)
Definition refSum256 (m : bytes) : bytes := copyArray 32 m.

Lemma refSum256_length m : length (refSum256 m) = 32.
Proof.
  unfold refSum256, copyArray.
  rewrite length_app, length_take, length_replicate. lia.
Qed.

Definition refHASH : HASH :=
  {| Sum256 := refSum256; Sum256_length := refSum256_length |}.

(** ** Sample data for the concrete runs *)

Definition samplePassphrase : bytes := String.list_byte_of_string "hunter2".

Definition samplePlaintext : bytes := String.list_byte_of_string "this is a test".

(** An entropy tape 0, 1, 2, ...: a salt, then nonces that all differ. *)
Definition sampleEntropy : bytes := byteOfZ <$> (Z.of_nat <$> seq 0 128).

Definition sampleKey : bytes := replicate 32 Byte.x07.

Definition sampleFile : bytes :=
  Eval vm_compute in
    match @encryptFile refAEAD refMAC refKDF samplePassphrase samplePlaintext sampleEntropy 4 with
    | Some (Renamed file) => file
    | _ => []
    end.

Definition sampleHeader : fileHeader :=
  Eval vm_compute in decodeHeader (take headerSize sampleFile).

Definition sampleSk : bytes :=
  Eval vm_compute in
    match @keysOf refKDF samplePassphrase sampleHeader with
    | Some (sk, _) => sk
    | None => []
    end.

Definition sampleMacKey : bytes :=
  Eval vm_compute in
    match @keysOf refKDF samplePassphrase sampleHeader with
    | Some (_, macKey) => macKey
    | None => []
    end.

(** The region of the sample file with its first byte replaced. *)
Definition sampleMutatedRegion : bytes :=
  <[0:=Byte.xff]> (drop headerSize sampleFile).

Definition sampleEmptyFile : bytes :=
  Eval vm_compute in
    match @encryptFile refAEAD refMAC refKDF samplePassphrase [] sampleEntropy 4 with
    | Some (Renamed file) => file
    | _ => []
    end.


(** The first 30 bytes of a frame: the nonce and part of the length. *)
Definition sampleCutFrame : bytes :=
  take 30 (@frame refAEAD sampleKey (replicate 24 Byte.x00) [Byte.x01]).

(** A header with a lanes byte of 0. *)
Definition sampleZeroLanesHeader : fileHeader :=
  {| Salt := replicate 32 Byte.x00; ArgonTime := 4; ArgonMemory := 4000000;
     ArgonLanes := 0; Tag := replicate 64 Byte.x00 |}.

(** A nonce, a length field of [maxChunkSize + 17], and one more byte. *)
Definition sampleOversize : bytes :=
  replicate 24 Byte.x00 ++ putUintLE 8 (Z.of_nat (maxChunkSize + 17)) ++ [Byte.x2a].

(** Two frames, by nonce and plaintext. *)
Definition sampleFrames : list (bytes * bytes) :=
  [(replicate 24 Byte.x00, [Byte.x01]); (replicate 24 Byte.x01, [Byte.x2a])].

(** The AEAD output for the byte 0x01 under the nonce 02..02, with its
    first byte altered. *)
Definition sampleBadCiphertext : bytes :=
  Eval vm_compute in
    <[0:=Byte.xff]> (@seal refAEAD sampleKey (replicate 24 Byte.x02) [Byte.x01]).

Definition sampleOtherPassphrase : bytes := String.list_byte_of_string "hunter3".

(** * Properties *)

(** ** Integers and bytes *)

Lemma maxChunkSize_Z : Z.of_nat maxChunkSize = 16384%Z.
Proof. reflexivity. Qed.

Lemma copyBufSize_Z : Z.of_nat copyBufSize = 32768%Z.
Proof. reflexivity. Qed.

Opaque maxChunkSize copyBufSize.

Ltac sizes :=
  pose proof maxChunkSize_Z; pose proof copyBufSize_Z;
  unfold nonceSize, overhead, saltSize, keyLen, macLen, headerSize in *; lia.

Lemma zOfByte_range b : (0 ≤ zOfByte b < 256)%Z.
Proof. unfold zOfByte. pose proof (Byte.to_N_bounded b). lia. Qed.

Lemma zOfByte_byteOfZ z : zOfByte (byteOfZ z) = (z mod 256)%Z.
Proof.
  unfold zOfByte, byteOfZ.
  assert (Hr : (0 ≤ z mod 256 < 256)%Z) by (apply Z.mod_pos_bound; lia).
  destruct (Byte.of_N (Z.to_N (z mod 256))) as [b|] eqn:Hb.
  - apply Byte.to_of_N in Hb. simpl. rewrite Hb. lia.
  - apply Byte.of_N_None_iff in Hb. lia.
Qed.

Lemma byteOfZ_zOfByte b : byteOfZ (zOfByte b) = b.
Proof.
  unfold zOfByte, byteOfZ. pose proof (Byte.to_N_bounded b).
  rewrite Z.mod_small by lia. rewrite N2Z.id, Byte.of_to_N. done.
Qed.

Lemma length_putUintLE n v : length (putUintLE n v) = n.
Proof. revert v. induction n as [|n IH]; intros v; simpl; [done|]. by rewrite IH. Qed.

Lemma getUintLE_putUintLE n v :
  getUintLE (putUintLE n v) = (v mod 256 ^ Z.of_nat n)%Z.
Proof.
  revert v. induction n as [|n IH]; intros v.
  - simpl. by rewrite Z.mod_1_r.
  - cbn [putUintLE getUintLE]. rewrite zOfByte_byteOfZ, IH.
    rewrite Nat2Z.inj_succ, Z.pow_succ_r by lia.
    rewrite (Z.rem_mul_r v 256 (256 ^ Z.of_nat n)) by lia. done.
Qed.

Lemma getUintLE_putUintLE_small n v :
  (0 ≤ v < 256 ^ Z.of_nat n)%Z → getUintLE (putUintLE n v) = v.
Proof. intros Hv. rewrite getUintLE_putUintLE. by apply Z.mod_small. Qed.

Lemma length_copyArray n src : length (copyArray n src) = n.
Proof. unfold copyArray. rewrite length_app, length_take, length_replicate. lia. Qed.

Lemma copyArray_id n src : length src = n → copyArray n src = src.
Proof.
  intros <-. unfold copyArray.
  rewrite firstn_all, Nat.sub_diag. simpl. by rewrite app_nil_r.
Qed.

(** ** Files *)

Lemma readFull_enough f n d rest :
  remaining f = d ++ rest → length d = n →
  readFull f n = (seekTo f (pos f + n), d, None) ∧
  remaining (seekTo f (pos f + n)) = rest.
Proof.
  intros Hrem Hlen. unfold readFull.
  assert (Hd : take n (remaining f) = d).
  { rewrite Hrem, <- Hlen. apply take_app_length. }
  assert (Hrest : remaining (seekTo f (pos f + n)) = rest).
  { unfold remaining, seekTo in *. simpl.
    rewrite <- drop_drop, Hrem, <- Hlen. apply drop_app_length. }
  rewrite Hd. destruct (decide (n = 0)) as [->|Hn].
  - destruct d; [|done]. rewrite Nat.add_0_r in *.
    split; [|done]. by destruct f.
  - rewrite decide_False by lia. rewrite decide_False by lia. done.
Qed.

Lemma readFull_at_end f n :
  remaining f = [] → 0 < n → readFull f n = (f, [], Some EOF).
Proof.
  intros Hrem Hn. unfold readFull. rewrite Hrem, take_nil.
  rewrite decide_False by lia. by rewrite decide_True.
Qed.

Lemma readFull_error f n f' d e :
  readFull f n = (f', d, Some e) →
  (e = EOF ∨ e = ErrUnexpectedEOF) ∧ content f' = content f ∧ remaining f' = [].
Proof.
  unfold readFull. intros Hr.
  destruct (decide (n = 0)); [done|].
  destruct (decide (length (take n (remaining f)) = 0)) as [Hz|Hz].
  - injection Hr as <- <- <-. split; [by left|]. split; [done|].
    rewrite length_take in Hz. destruct (remaining f); [done|simpl in Hz; lia].
  - destruct (decide (length (take n (remaining f)) < n)) as [Hlt|]; [|done].
    injection Hr as <- <- <-. split; [by right|]. split; [done|].
    unfold remaining, seekTo in *. simpl.
    rewrite length_take, length_drop in *. apply drop_ge. lia.
Qed.
Set Warnings "-clear-no-such-hyp".

(** ** The streaming encryptor *)

Section encryptor.
Context `{!AEAD}.

Lemma frames_nil sk : frames sk [] = [].
Proof. done. Qed.

Lemma frames_cons sk n p cs : frames sk ((n, p) :: cs) = frame sk n p ++ frames sk cs.
Proof. done. Qed.

Lemma frames_app sk cs1 cs2 : frames sk (cs1 ++ cs2) = frames sk cs1 ++ frames sk cs2.
Proof. unfold frames. by rewrite fmap_app, join_app. Qed.

Lemma emitted_refl w : emitted w w [].
Proof.
  unfold emitted. simpl. rewrite app_nil_r.
  split_and!; first [done | by constructor | set_solver].
Qed.

Lemma emitted_trans w w1 w2 cs1 cs2 :
  emitted w w1 cs1 → emitted w1 w2 cs2 → emitted w w2 (cs1 ++ cs2).
Proof.
  intros (Ho1 & Hk1 & Hr1 & Hl1 & Hd1 & Hf1 & Hu1) (Ho2 & Hk2 & Hr2 & Hl2 & Hd2 & Hf2 & Hu2).
  unfold emitted. rewrite fmap_app, frames_app, join_app.
  split_and!.
  - rewrite Ho2, Ho1, Hk1. by rewrite <- app_assoc.
  - congruence.
  - rewrite Hr1, Hr2. by rewrite <- app_assoc.
  - by apply Forall_app.
  - apply NoDup_app. split; [done|]. split; [|done].
    intros n Hn1 Hn2. apply (Hf2 n Hn2). rewrite Hu1. set_solver.
  - intros n Hn. apply elem_of_app in Hn as [Hn|Hn]; [by apply Hf1|].
    specialize (Hf2 n Hn). rewrite Hu1 in Hf2. set_solver.
  - rewrite Hu2, Hu1, list_to_set_app_L. set_solver.
Qed.

Lemma emitted_appendByte w b : emitted w (appendByte w b) [].
Proof.
  unfold emitted. simpl. rewrite app_nil_r.
  split_and!; first [done | by constructor | set_solver].
Qed.

(** What [writeChunk] does when it returns: one frame holding [buf]. *)
Lemma writeChunk_Return w w' err :
  writeChunk w = Return w' err →
  err = None ∧ EncWriter.buf w' = [] ∧
  ∃ nonce, emitted w w' [(nonce, EncWriter.buf w)].
Proof.
  unfold writeChunk. intros Hw.
  destruct (decide (length (EncWriter.rand w) < nonceSize)) as [|Hlen]; [done|].
  destruct (decide (_ ∈ _)) as [|Hfresh]; [done|].
  unfold Write, buffer_Writer in Hw. cbv beta iota zeta in Hw.
  injection Hw as <- <-. split; [done|]. split; [done|].
  exists (take nonceSize (EncWriter.rand w)).
  unfold emitted, frames. cbn [fmap list_fmap mjoin list_join fst snd EncWriter.out
    EncWriter.secretKey EncWriter.rand EncWriter.usedNonces list_to_set].
  rewrite !app_nil_r.
  split_and!; try done; [| | | | |set_solver].
  - unfold frame. by rewrite <- !app_assoc.
  - by rewrite take_drop.
  - constructor; [|constructor]. rewrite length_take. lia.
  - apply NoDup_singleton.
  - intros n Hn. apply list_elem_of_singleton in Hn as ->. done.
Qed.

(** [writeChunk] returns whenever the tape holds a fresh nonce. *)
Lemma writeChunk_fresh w nonce rest :
  EncWriter.rand w = nonce ++ rest → length nonce = nonceSize →
  nonce ∉ EncWriter.usedNonces w →
  writeChunk w =
    Return (EncWriter.mk
              (EncWriter.out w ++ frame (EncWriter.secretKey w) nonce (EncWriter.buf w))
              [] ({[nonce]} ∪ EncWriter.usedNonces w) (EncWriter.secretKey w) rest)
           None.
Proof.
  intros Hr Hlen Hfresh. unfold writeChunk.
  assert (Ht : take nonceSize (EncWriter.rand w) = nonce).
  { rewrite Hr, <- Hlen. apply take_app_length. }
  assert (Hd : drop nonceSize (EncWriter.rand w) = rest).
  { rewrite Hr, <- Hlen. apply drop_app_length. }
  rewrite decide_False by (rewrite Hr, length_app; lia).
  rewrite Ht, Hd. rewrite decide_False by done.
  unfold Write, buffer_Writer. cbv beta iota zeta.
  unfold frame. by rewrite <- !app_assoc.
Qed.

(** A nonce already in the set aborts: nothing is returned, no frame. *)
Lemma writeChunk_reuse w :
  nonceSize ≤ length (EncWriter.rand w) →
  take nonceSize (EncWriter.rand w) ∈ EncWriter.usedNonces w →
  writeChunk w = Panicked "nonce reuse".
Proof.
  intros Hlen Hin. unfold writeChunk.
  rewrite decide_False by lia. by rewrite decide_True.
Qed.

Lemma maxChunkSize_pos : 0 < maxChunkSize.
Proof. sizes. Qed.

Lemma writeLoop_Return p : ∀ w i w' j err,
  length (EncWriter.buf w) ≤ maxChunkSize →
  writeLoop w p i = Return (w', j) err →
  err = None ∧ j = i + length p ∧
  length (EncWriter.buf w') ≤ maxChunkSize ∧
  (EncWriter.buf w ++ p ≠ [] → EncWriter.buf w' ≠ []) ∧
  ∃ cs, emitted w w' cs ∧
        mjoin cs.*2 ++ EncWriter.buf w' = EncWriter.buf w ++ p ∧
        Forall (λ c, length c = maxChunkSize) cs.*2.
Proof.
  induction p as [|b p IH]; intros w i w' j err Hbuf Hloop.
  - cbn in Hloop. injection Hloop as <- <- <-.
    rewrite app_nil_r. repeat split; [simpl; lia|done|done|].
    exists []. split; [apply emitted_refl|]. split; [done|constructor].
  - cbn [writeLoop] in Hloop.
    destruct (decide (length (EncWriter.buf w) = maxChunkSize)) as [Hfull|Hroom].
    + destruct (writeChunk w) as [w1 e1|] eqn:Hchunk; [|done].
      apply writeChunk_Return in Hchunk as (-> & Hnil & nonce & Hem).
      apply IH in Hloop as (-> & -> & Hle & Hne & cs & Hem' & Hcat & Hall);
        [|simpl; rewrite Hnil; pose proof maxChunkSize_pos; simpl; lia].
      split; [done|]. split; [simpl; lia|]. split; [done|].
      split. { intros _. apply Hne. simpl. rewrite Hnil. done. }
      exists ((nonce, EncWriter.buf w) :: cs). split.
      * change ((nonce, EncWriter.buf w) :: cs) with ([(nonce, EncWriter.buf w)] ++ [] ++ cs).
        eapply emitted_trans; [exact Hem|].
        eapply emitted_trans; [apply emitted_appendByte|exact Hem'].
      * split; [|by constructor].
        change (mjoin ((nonce, EncWriter.buf w) :: cs).*2)
          with (EncWriter.buf w ++ mjoin cs.*2).
        rewrite <- app_assoc, Hcat. unfold appendByte. simpl. by rewrite Hnil.
    + apply IH in Hloop as (-> & -> & Hle & Hne & cs & Hem' & Hcat & Hall);
        [|simpl; rewrite length_app; simpl; lia].
      split; [done|]. split; [simpl; lia|]. split; [done|].
      split. { intros _. apply Hne. simpl. by destruct (EncWriter.buf w). }
      exists cs. split.
      * change cs with ([] ++ cs).
        eapply emitted_trans; [apply emitted_appendByte|exact Hem'].
      * split; [|done]. simpl in Hcat. rewrite Hcat, <- app_assoc. done.
Qed.

(** What a Write that returns has done: the plaintext [buf ++ p], cut in
    order into chunks of at most [maxChunkSize] bytes, one frame each, and
    the buffer left empty. *)
Lemma Write_Return w p w' n err :
  length (EncWriter.buf w) ≤ maxChunkSize →
  EncWriter_Write w p = Return (w', n) err →
  err = None ∧ n = length p ∧ EncWriter.buf w' = [] ∧
  ∃ cs, emitted w w' cs ∧ cs ≠ [] ∧
        mjoin cs.*2 = EncWriter.buf w ++ p ∧
        Forall (λ c, length c ≤ maxChunkSize) cs.*2 ∧
        (EncWriter.buf w ++ p ≠ [] → Forall (λ c, c ≠ []) cs.*2).
Proof.
  intros Hbuf. unfold EncWriter_Write. intros Hw.
  destruct (writeLoop w p 0) as [[w1 i] e1|] eqn:Hloop; [|done].
  apply writeLoop_Return in Hloop as (-> & -> & Hle & Hne & cs & Hem & Hcat & Hall); [|done].
  destruct (writeChunk w1) as [w2 e2|] eqn:Hchunk; [|done].
  injection Hw as <- <- <-.
  apply writeChunk_Return in Hchunk as (-> & Hnil & nonce & Hem2).
  split; [done|]. split; [done|]. split; [done|].
  exists (cs ++ [(nonce, EncWriter.buf w1)]).
  split; [by eapply emitted_trans|]. split; [by destruct cs|].
  rewrite fmap_app, join_app. simpl. rewrite app_nil_r.
  split; [done|]. split.
  - apply Forall_app. split; [|by repeat constructor].
    eapply Forall_impl; [exact Hall|]. simpl. intros c ->. done.
  - intros Hp. apply Forall_app. split; [|repeat constructor; by apply Hne].
    eapply Forall_impl; [exact Hall|]. simpl. intros c Hc ->.
    pose proof maxChunkSize_pos. simpl in Hc. lia.
Qed.

End encryptor.

Section encryptor_runs.
Context `{!AEAD}.

(** While the buffer has room the loop only appends. *)
Lemma writeLoop_fill p : ∀ w i,
  length (EncWriter.buf w) + length p ≤ maxChunkSize →
  writeLoop w p i =
    Return (EncWriter.mk (EncWriter.out w) (EncWriter.buf w ++ p)
              (EncWriter.usedNonces w) (EncWriter.secretKey w) (EncWriter.rand w),
            i + length p) None.
Proof.
  induction p as [|b p IH]; intros w i Hroom.
  - simpl. rewrite app_nil_r, Nat.add_0_r. by destruct w.
  - cbn [writeLoop]. simpl in Hroom.
    rewrite decide_False by lia.
    rewrite IH by (simpl; rewrite length_app; simpl; lia).
    simpl. rewrite <- app_assoc. simpl. do 2 f_equal. lia.
Qed.

Lemma writeLoop_app p1 : ∀ w i p2,
  writeLoop w (p1 ++ p2) i =
    match writeLoop w p1 i with
    | Return (w1, j) None => writeLoop w1 p2 j
    | r => r
    end.
Proof.
  induction p1 as [|b p1 IH]; intros w i p2; [done|].
  cbn [writeLoop app].
  destruct (decide _); [|apply IH].
  destruct (writeChunk w) as [w1 [e1|]|]; [done|apply IH|done].
Qed.

(** Any sequence of Write calls on a writer with an empty buffer: the
    frames carry the submitted plaintext in order, at most [maxChunkSize]
    bytes each, and no frame is empty unless a Write was. *)
Lemma writeAll_Return ps : ∀ w w' err,
  EncWriter.buf w = [] →
  writeAll w ps = Return w' err →
  err = None ∧ EncWriter.buf w' = [] ∧
  ∃ cs, emitted w w' cs ∧
        mjoin cs.*2 = mjoin ps ∧
        Forall (λ c, length c ≤ maxChunkSize) cs.*2 ∧
        (Forall (λ p, p ≠ []) ps → Forall (λ c, c ≠ []) cs.*2).
Proof.
  induction ps as [|p ps IH]; intros w w' err Hbuf Hall.
  - injection Hall as <- <-. split; [done|]. split; [done|].
    exists []. split; [apply emitted_refl|]. by repeat constructor.
  - cbn [writeAll] in Hall.
    destruct (EncWriter_Write w p) as [[w1 n] e1|] eqn:Hw; [|done].
    apply Write_Return in Hw as (-> & -> & Hnil & cs1 & Hem1 & _ & Hcat1 & Hle1 & Hne1);
      [|rewrite Hbuf; simpl; lia].
    apply IH in Hall as (-> & Hnil' & cs2 & Hem2 & Hcat2 & Hle2 & Hne2); [|done].
    split; [done|]. split; [done|].
    exists (cs1 ++ cs2). split; [by eapply emitted_trans|].
    rewrite fmap_app, join_app, Hcat1, Hcat2, Hbuf. simpl.
    split; [done|]. split; [by apply Forall_app|].
    intros Hps. apply Forall_cons in Hps as [Hp Hps].
    apply Forall_app. split; [|by apply Hne2].
    apply Hne1. rewrite Hbuf. done.
Qed.
End encryptor_runs.

(** ** io.Copy from a file *)

Lemma copyBufSize_pos : 0 < copyBufSize.
Proof. sizes. Qed.

Lemma fileRead_cases f n :
  0 < n →
  (remaining f = [] ∧ fileRead f n = Return (f, []) (Some EOF)) ∨
  (∃ d f', d ≠ [] ∧ fileRead f n = Return (f', d) None ∧
           remaining f = d ++ remaining f' ∧ content f' = content f).
Proof.
  intros Hn. unfold fileRead. rewrite decide_False by lia.
  destruct (decide (take n (remaining f) = [])) as [Hnil|Hd].
  - left. split; [|done].
    destruct (remaining f); [done|]. destruct n; [lia|done].
  - right. eexists _, _. split; [exact Hd|]. split; [done|]. split; [|done].
    unfold remaining, seekTo. simpl.
    rewrite <- drop_drop, length_take.
    fold (remaining f).
    destruct (decide (n ≤ length (remaining f))).
    + rewrite Nat.min_l by done. by rewrite take_drop.
    + rewrite Nat.min_r by lia. rewrite take_ge by lia.
      rewrite drop_all. by rewrite app_nil_r.
Qed.

(** A copy from a file makes at most one Read per remaining byte, and one
    more to see the end. *)
Lemma ioCopy_file_fuel {W} `{Writer W} fuel : ∀ (dst : W) f written,
  length (remaining f) < fuel → ioCopy fuel dst f written ≠ None.
Proof.
  induction fuel as [|fuel IH]; intros dst f written Hfuel; [lia|].
  cbn [ioCopy]. change (Read f copyBufSize) with (fileRead f copyBufSize).
  destruct (fileRead_cases f copyBufSize copyBufSize_pos)
    as [[_ ->]|(d & f' & Hd & -> & Hrem & _)].
  - simpl. done.
  - rewrite decide_True by (destruct d; [done|simpl; lia]).
    destruct (Write dst d) as [[dst' nw] ew|]; [|done].
    destruct (decide (length d < nw)); [by destruct ew|].
    destruct ew; [done|].
    destruct (decide (length d = nw)); [|done].
    apply IH. rewrite Hrem, length_app in Hfuel.
    destruct d; [done|]. simpl in Hfuel. lia.
Qed.

(** Copying a file into a buffer appends what remained of the file. *)
Lemma ioCopy_file_buffer fuel : ∀ (dst : bytes) f written,
  length (remaining f) < fuel →
  ∃ f', ioCopy fuel dst f written =
          Some (Return (dst ++ remaining f, f', written + length (remaining f)) None) ∧
        content f' = content f.
Proof.
  induction fuel as [|fuel IH]; intros dst f written Hfuel; [lia|].
  cbn [ioCopy]. change (Read f copyBufSize) with (fileRead f copyBufSize).
  destruct (fileRead_cases f copyBufSize copyBufSize_pos)
    as [[Hnil ->]|(d & f' & Hd & -> & Hrem & Hc)].
  - simpl. rewrite Hnil, app_nil_r. simpl. rewrite Nat.add_0_r. by exists f.
  - rewrite decide_True by (destruct d; [done|simpl; lia]).
    change (Write dst d) with (Return (dst ++ d, length d) None).
    cbv beta iota.
    rewrite decide_False by lia. rewrite decide_True by done.
    destruct (IH (dst ++ d) f' (written + length d)) as (f'' & -> & Hc').
    { rewrite Hrem, length_app in Hfuel. destruct d; [done|]. simpl in Hfuel. lia. }
    exists f''. rewrite Hrem, length_app, <- app_assoc, Nat.add_assoc.
    split; [done|]. congruence.
Qed.

Section copy_encrypt.
Context `{!AEAD}.

(** Copying a file through the encryptor: the frames carry the rest of
    the file in order, every frame between 1 and [maxChunkSize] bytes of
    it. *)
Lemma ioCopy_encrypt fuel : ∀ w f written w' f' n err,
  EncWriter.buf w = [] →
  ioCopy fuel w f written = Some (Return (w', f', n) err) →
  err = None ∧ EncWriter.buf w' = [] ∧
  ∃ cs, emitted w w' cs ∧
        mjoin cs.*2 = remaining f ∧
        Forall (λ c, 1 ≤ length c ≤ maxChunkSize) cs.*2.
Proof.
  induction fuel as [|fuel IH]; intros w f written w' f' n err Hbuf Hcopy; [done|].
  cbn [ioCopy] in Hcopy.
  change (Read f copyBufSize) with (fileRead f copyBufSize) in Hcopy.
  destruct (fileRead_cases f copyBufSize copyBufSize_pos)
    as [[Hnil Hr]|(d & f1 & Hd & Hr & Hrem & _)]; rewrite Hr in Hcopy.
  - simpl in Hcopy. injection Hcopy as <- <- <- <-.
    split; [done|]. split; [done|].
    exists []. split; [apply emitted_refl|]. by rewrite Hnil.
  - rewrite decide_True in Hcopy by (destruct d; [done|simpl; lia]).
    change (Write w d) with (EncWriter_Write w d) in Hcopy.
    destruct (EncWriter_Write w d) as [[w1 nw] ew|] eqn:Hw; [|done].
    apply Write_Return in Hw as (-> & -> & Hnil & cs1 & Hem1 & _ & Hcat1 & Hle1 & Hne1);
      [|rewrite Hbuf; simpl; lia].
    rewrite decide_False in Hcopy by lia.
    rewrite decide_True in Hcopy by done.
    apply IH in Hcopy as (-> & Hnil' & cs2 & Hem2 & Hcat2 & Hle2); [|done].
    split; [done|]. split; [done|].
    exists (cs1 ++ cs2). split; [by eapply emitted_trans|].
    rewrite fmap_app, join_app, Hcat1, Hcat2, Hbuf, Hrem. split; [done|].
    apply Forall_app. split; [|done].
    rewrite Hbuf in Hne1. specialize (Hne1 Hd).
    apply Forall_forall. intros c Hc.
    rewrite Forall_forall in Hle1, Hne1.
    specialize (Hle1 c Hc). specialize (Hne1 c Hc).
    destruct c; [done|]. simpl in *. lia.
Qed.
End copy_encrypt.

(** ** The streaming decryptor *)

Section decryptor.
Context `{!AEAD}.

Lemma seal_length k n p : length (seal k n p) = length p + overhead.
Proof. apply (open_length k n). apply open_seal. Qed.

Lemma length_frame sk n p :
  length (frame sk n p) = length n + 8 + length p + overhead.
Proof.
  unfold frame. rewrite !length_app, length_putUintLE, seal_length. lia.
Qed.

(** [nextChunk] on a source that starts with a frame of this key. *)
Lemma nextChunk_frame b n p rest :
  remaining (DecReader.in_ b) = frame (DecReader.secretKey b) n p ++ rest →
  length n = nonceSize → length p ≤ maxChunkSize →
  ∃ f', nextChunk b = (DecReader.mk f' p (DecReader.index b) (DecReader.secretKey b), None) ∧
        remaining f' = rest ∧ content f' = content (DecReader.in_ b).
Proof.
  intros Hrem Hn Hp. unfold nextChunk.
  set (sk := DecReader.secretKey b) in *.
  set (ct := seal sk n p) in *.
  assert (Hct : length ct = length p + overhead) by apply seal_length.
  unfold frame in Hrem. fold ct in Hrem. rewrite <- !app_assoc in Hrem.
  destruct (readFull_enough _ _ _ _ Hrem Hn) as [-> Hrem1].
  set (f1 := seekTo (DecReader.in_ b) _) in *.
  destruct (readFull_enough f1 8 _ _ Hrem1 (length_putUintLE _ _)) as [-> Hrem2].
  set (f2 := seekTo f1 _) in *.
  rewrite getUintLE_putUintLE_small by (change (256 ^ Z.of_nat 8)%Z with (2 ^ 64)%Z; sizes).
  rewrite decide_False by sizes.
  rewrite Nat2Z.id.
  destruct (readFull_enough f2 (length ct) _ _ Hrem2 eq_refl) as [-> Hrem3].
  replace (open sk n ct) with (Some p) by (symmetry; apply open_seal).
  eexists. split; [done|]. split; [done|]. done.
Qed.

Lemma reads_frames_end sk b cs :
  reads_frames sk b cs → pending b ++ mjoin cs.*2 = [] →
  DecReader.index b = 0 ∧ remaining (DecReader.in_ b) = [].
Proof.
  intros (_ & Hrem & _ & Hlen & Hidx) Hnil.
  apply app_eq_nil in Hnil as [Hpend Hcs].
  assert (Hi : DecReader.index b = 0).
  { unfold pending in Hpend. destruct (decide _) as [|Hne]; [done|].
    destruct Hidx as [|Hlt]; [done|].
    apply (f_equal length) in Hpend. rewrite length_drop in Hpend. simpl in Hpend. lia. }
  split; [done|]. rewrite Hrem.
  destruct cs as [|[n p] cs]; [done|].
  rewrite fmap_cons in Hcs, Hlen.
  simpl in Hcs. apply app_eq_nil in Hcs as [-> _].
  apply Forall_cons in Hlen as [Hlen _]. simpl in Hlen. lia.
Qed.

(** At the end of a well-formed stream a Read of at least one byte
    returns io.EOF and changes nothing. *)
Lemma readLoop_end sk b cs n got :
  reads_frames sk b cs → pending b ++ mjoin cs.*2 = [] →
  readLoop (S n) b got = Return (b, got) (Some EOF).
Proof.
  intros Hinv Hnil.
  destruct (reads_frames_end _ _ _ Hinv Hnil) as [Hi Hrem].
  cbn [readLoop]. rewrite decide_True by done.
  unfold nextChunk. rewrite readFull_at_end by (done || sizes).
  by destruct b.
Qed.

(** One iteration of the loop of Read serves the next byte of the
    stream. *)
Lemma readLoop_step sk b cs x s :
  reads_frames sk b cs → pending b ++ mjoin cs.*2 = x :: s →
  ∃ b' cs',
    (∀ n got, readLoop (S n) b got = readLoop n b' (got ++ [x])) ∧
    reads_frames sk b' cs' ∧ pending b' ++ mjoin cs'.*2 = s ∧
    content (DecReader.in_ b') = content (DecReader.in_ b).
Proof.
  intros (Hsk & Hrem & Hnonces & Hlens & Hidx) Hstream.
  destruct (decide (DecReader.index b = 0)) as [Hzero|Hnz].
  - unfold pending in Hstream. rewrite decide_True in Hstream by done.
    simpl in Hstream.
    destruct cs as [|[nc p] cs]; [done|].
    rewrite fmap_cons in Hnonces, Hlens, Hstream.
    apply Forall_cons in Hnonces as [Hnc Hnonces].
    apply Forall_cons in Hlens as [Hp Hlens]. simpl in Hnc, Hp.
    rewrite frames_cons, <- Hsk in Hrem.
    destruct (nextChunk_frame b nc p _ Hrem Hnc (proj2 Hp)) as (f' & Hnext & Hrem' & Hc).
    destruct p as [|y p]; [simpl in Hp; lia|].
    simpl in Hstream. injection Hstream as -> <-.
    eexists (DecReader.mk f' (x :: p) (if decide (length (x :: p) ≤ 1) then 0 else 1)
               (DecReader.secretKey b)), cs.
    split; [|split; [|split]].
    + intros n got. cbn [readLoop]. rewrite decide_True by done.
      rewrite Hnext, Hzero. done.
    + unfold reads_frames. cbn. rewrite Hsk in *. split_and!; try done.
      destruct (decide _); [by left|right; simpl in *; lia].
    + unfold pending. cbn. f_equal.
      destruct (decide (S (length p) ≤ 1)) as [Hone|Hmore].
      * rewrite decide_True by done. destruct p; [done|simpl in Hone; lia].
      * rewrite decide_False by done. done.
    + done.
  - destruct Hidx as [|Hlt]; [done|].
    unfold pending in Hstream. rewrite decide_False in Hstream by done.
    destruct (lookup_lt_is_Some_2 _ _ Hlt) as [y Hy].
    rewrite (drop_S _ _ _ Hy) in Hstream. simpl in Hstream.
    injection Hstream as -> Hs.
    set (i := S (DecReader.index b)) in *.
    eexists (DecReader.mk (DecReader.in_ b) (DecReader.buf b)
               (if decide (length (DecReader.buf b) ≤ i) then 0 else i)
               (DecReader.secretKey b)), cs.
    split; [|split; [|split]].
    + intros n got. cbn [readLoop]. rewrite decide_False by done.
      cbv beta iota. rewrite Hy. done.
    + unfold reads_frames. cbn. split_and!; try done.
      destruct (decide _); [by left|right; lia].
    + rewrite <- Hs. f_equal. unfold pending. cbn.
      destruct (decide (length (DecReader.buf b) ≤ i)) as [Hend|Hmid].
      * rewrite decide_True by done. by rewrite drop_ge.
      * rewrite decide_False by (unfold i; lia). done.
    + done.
Qed.

(** A Read of [n] bytes on a well-formed stream: the next [n] bytes of
    plaintext, or all that is left together with io.EOF. *)
Lemma readLoop_frames sk n : ∀ b cs got s,
  reads_frames sk b cs → pending b ++ mjoin cs.*2 = s →
  ∃ b' cs',
    readLoop n b got =
      Return (b', got ++ take n s) (if decide (length s < n) then Some EOF else None) ∧
    reads_frames sk b' cs' ∧ pending b' ++ mjoin cs'.*2 = drop n s ∧
    content (DecReader.in_ b') = content (DecReader.in_ b).
Proof.
  induction n as [|n IH]; intros b cs got s Hinv Hs.
  - exists b, cs. cbn [readLoop]. rewrite take_0, app_nil_r, drop_0.
    rewrite decide_False by lia. done.
  - destruct s as [|x s'].
    + exists b, cs. rewrite (readLoop_end sk b cs) by done.
      simpl. rewrite app_nil_r. done.
    + destruct (readLoop_step sk b cs x s' Hinv Hs) as (b1 & cs1 & Hstep & Hinv1 & Hs1 & Hc1).
      destruct (IH b1 cs1 (got ++ [x]) s' Hinv1 Hs1) as (b' & cs' & Hread & Hinv' & Hs' & Hc').
      exists b', cs'. rewrite Hstep, Hread.
      split; [|split; [done|split; [done|congruence]]].
      simpl. rewrite <- app_assoc. simpl. f_equal.
      destruct (decide (length s' < n)), (decide (S (length s') < S n)); try done; lia.
Qed.
End decryptor.

Section copy_decrypt.
Context `{!AEAD}.

(** Copying a well-formed stream through the decryptor into a buffer
    appends all its plaintext and ends without error. *)
Lemma ioCopy_decrypt sk fuel : ∀ b cs (dst : bytes) written s,
  reads_frames sk b cs → pending b ++ mjoin cs.*2 = s → length s < fuel →
  ∃ b', ioCopy fuel dst b written =
          Some (Return (dst ++ s, b', written + length s) None).
Proof.
  induction fuel as [|fuel IH]; intros b cs dst written s Hinv Hs Hfuel; [lia|].
  cbn [ioCopy]. change (Read b copyBufSize) with (readLoop copyBufSize b []).
  destruct (readLoop_frames sk copyBufSize b cs [] s Hinv Hs)
    as (b1 & cs1 & -> & Hinv1 & Hs1 & _).
  rewrite app_nil_l. pose proof copyBufSize_pos as Hpos.
  destruct (decide (length s < copyBufSize)) as [Hshort|Hlong].
  - rewrite take_ge by lia.
    destruct (decide (0 < length s)) as [Hne|He].
    + change (Write dst s) with (Return (dst ++ s, length s) None). cbv beta iota.
      rewrite decide_False by lia. rewrite decide_True by done. by exists b1.
    + destruct s; [|simpl in He; lia]. simpl.
      rewrite app_nil_r, Nat.add_0_r. by exists b1.
  - assert (Hlen : length (take copyBufSize s) = copyBufSize)
      by (rewrite length_take; lia).
    rewrite decide_True by lia.
    change (Write dst (take copyBufSize s))
      with (Return (dst ++ take copyBufSize s, length (take copyBufSize s)) None).
    cbv beta iota.
    rewrite decide_False by lia. rewrite decide_True by done.
    assert (Hfuel' : length (drop copyBufSize s) < fuel)
      by (rewrite length_drop; lia).
    destruct (IH b1 cs1 (dst ++ take copyBufSize s)
                (written + length (take copyBufSize s)) _ Hinv1 Hs1 Hfuel') as (b' & ->).
    exists b'. rewrite <- app_assoc, take_drop, length_drop, Hlen.
    replace (written + copyBufSize + (length s - copyBufSize))
      with (written + length s) by lia.
    done.
Qed.

Lemma length_frames_ge sk cs : length (mjoin cs.*2) ≤ length (frames sk cs).
Proof.
  induction cs as [|[n p] cs IH]; [done|].
  rewrite fmap_cons, frames_cons. simpl.
  rewrite !length_app, length_frame. lia.
Qed.
End copy_decrypt.

(** Scanning what the encryptor emitted gives back its frames. *)
Section scan.
Context `{!AEAD}.

Lemma scanFrames_frames sk cs : ∀ fuel,
  Forall (λ n, length n = nonceSize) cs.*1 →
  Forall (λ c, length c ≤ maxChunkSize) cs.*2 →
  length cs ≤ fuel →
  scanFrames fuel (frames sk cs) = Some ((λ c, (c.1, seal sk c.1 c.2)) <$> cs).
Proof.
  induction cs as [|[n p] cs IH]; intros fuel Hn Hp Hfuel.
  { by destruct fuel. }
  rewrite fmap_cons in Hn, Hp.
  apply Forall_cons in Hn as [Hn Hns]. apply Forall_cons in Hp as [Hp Hps].
  cbn [fst snd] in Hn, Hp.
  destruct fuel as [|fuel]; [simpl in Hfuel; lia|].
  rewrite frames_cons. unfold frame at 1.
  set (ct := seal sk n p).
  assert (Hct : length ct = length p + overhead) by apply seal_length.
  destruct n as [|x n]; [done|].
  cbn [scanFrames app].
  change (x :: n ++ putUintLE 8 (Z.of_nat (length ct)) ++ ct ++ frames sk cs)
    with ((x :: n) ++ putUintLE 8 (Z.of_nat (length ct)) ++ ct ++ frames sk cs).
  rewrite <- !app_assoc.
  change (x :: n ++ putUintLE 8 (Z.of_nat (length ct)) ++ ct ++ frames sk cs)
    with ((x :: n) ++ putUintLE 8 (Z.of_nat (length ct)) ++ ct ++ frames sk cs).
  set (nonce := x :: n) in *.
  rewrite (take_app_length' nonce) by done.
  rewrite (drop_app_length' nonce) by done.
  rewrite (take_app_length' (putUintLE 8 _)) by (by rewrite length_putUintLE).
  rewrite getUintLE_putUintLE_small
    by (change (256 ^ Z.of_nat 8)%Z with (2 ^ 64)%Z; sizes).
  rewrite Nat2Z.id.
  replace (drop (nonceSize + 8) (nonce ++ putUintLE 8 (Z.of_nat (length ct)) ++ ct ++ frames sk cs))
    with (ct ++ frames sk cs)
    by (rewrite app_assoc; symmetry; apply drop_app_length';
        rewrite length_app, length_putUintLE; lia).
  replace (drop (nonceSize + 8 + length ct)
             (nonce ++ putUintLE 8 (Z.of_nat (length ct)) ++ ct ++ frames sk cs))
    with (frames sk cs)
    by (rewrite !app_assoc; symmetry; apply drop_app_length';
        rewrite !length_app, length_putUintLE; lia).
  rewrite take_app_length.
  rewrite decide_True by (by rewrite length_putUintLE).
  rewrite IH by (done || simpl in Hfuel; lia). done.
Qed.

Lemma length_frames_count sk cs : length cs ≤ length (frames sk cs).
Proof.
  induction cs as [|[n p] cs IH]; [done|].
  rewrite frames_cons, length_app, length_frame. simpl. lia.
Qed.
End scan.

(** ** The header *)

Lemma length_encodeHeader h :
  length (encodeHeader h) = length (Salt h) + 9 + length (Tag h).
Proof. unfold encodeHeader. rewrite !length_app, !length_putUintLE. lia. Qed.

Lemma length_encodeHeader_wf h : header_wf h → length (encodeHeader h) = headerSize.
Proof. intros (Hs & _ & _ & _ & Ht). rewrite length_encodeHeader, Hs, Ht. done. Qed.

Lemma decodeHeader_encodeHeader h rest :
  header_wf h → decodeHeader (encodeHeader h ++ rest) = h.
Proof.
  destruct h as [salt t m l tag]. intros (Hs & Ht & Hm & Hl & Htag).
  cbn [Salt ArgonTime ArgonMemory ArgonLanes Tag] in *.
  unfold decodeHeader, encodeHeader.
  cbn [Salt ArgonTime ArgonMemory ArgonLanes Tag].
  rewrite <- !app_assoc.
  assert (H4 : ∀ v, 4 = length (putUintLE 4 v)) by (intros; by rewrite length_putUintLE).
  assert (H1 : ∀ v, 1 = length (putUintLE 1 v)) by (intros; by rewrite length_putUintLE).
  f_equal.
  - by rewrite take_app_length'.
  - rewrite drop_app_length' by done.
    rewrite take_app_length' by apply H4.
    by apply getUintLE_putUintLE_small.
  - rewrite (app_assoc salt).
    rewrite drop_app_length' by (rewrite length_app, length_putUintLE; lia).
    rewrite take_app_length' by apply H4.
    by apply getUintLE_putUintLE_small.
  - rewrite (app_assoc salt), (app_assoc (salt ++ _)).
    rewrite drop_app_length' by (rewrite !length_app, !length_putUintLE; lia).
    rewrite take_app_length' by apply H1.
    by apply getUintLE_putUintLE_small.
  - rewrite (app_assoc salt), (app_assoc (salt ++ _)), (app_assoc ((salt ++ _) ++ _)).
    rewrite drop_app_length' by (rewrite !length_app, !length_putUintLE; lia).
    by rewrite take_app_length'.
Qed.

(** ** The file operations *)

Section files.
Context `{!AEAD, !MAC, !KDF}.

Lemma generateKey_Return pw rand numCPU skb h rand' err :
  generateKey pw rand numCPU = Return (skb, h, rand') err →
  err = Some errEntropy ∧ length rand < saltSize ∨
  err = None ∧ header_wf h ∧ rand = Salt h ++ rand' ∧
  ArgonTime h = defaultArgonTime ∧ ArgonMemory h = defaultArgonMemory ∧
  ArgonLanes h = defaultArgonLanes numCPU ∧ (1 ≤ ArgonLanes h)%Z ∧
  keysOf pw h = Some (copyArray 32 (take 32 skb), copyArray 32 (drop 32 skb)).
Proof.
  unfold generateKey. intros Hg.
  destruct (decide (length rand < saltSize)) as [Hshort|Hlong].
  { injection Hg as <- <- <- <-. by left. }
  right. unfold keysOf.
  destruct (IDKey _ _ _ _ _ _) as [skb' e|] eqn:Hkey; [|done].
  injection Hg as <- <- <- <-.
  cbn [Salt ArgonTime ArgonMemory ArgonLanes Tag] in *.
  rewrite Hkey. split; [done|].
  assert (Hlanes : (0 ≤ defaultArgonLanes numCPU < 2 ^ 8)%Z).
  { unfold defaultArgonLanes, uint8. apply Z.mod_pos_bound. lia. }
  unfold IDKey in Hkey.
  destruct (decide (defaultArgonTime < 1)%Z); [done|].
  destruct (decide (defaultArgonLanes numCPU < 1)%Z); [done|].
  split.
  { unfold header_wf. cbn [Salt ArgonTime ArgonMemory ArgonLanes Tag].
    rewrite length_take.
    unfold defaultArgonTime, defaultArgonMemory, saltSize in *.
    split_and!; [lia|lia|lia|lia|lia|lia|lia|done]. }
  split; [by rewrite take_drop|].
  split_and!; try done; lia.
Qed.

(** The output file after the header, the chunks and the rewritten
    header. *)
Lemma content_rewritten hdr0 region hdr1 :
  length hdr1 = length hdr0 →
  content (fileWrite (seekTo (fileWrite (fileWrite {| content := []; pos := 0 |} hdr0) region) 0) hdr1)
  = hdr1 ++ region.
Proof.
  intros Hlen. unfold fileWrite, seekTo. cbn [content pos].
  rewrite take_0, !app_nil_l, drop_nil, app_nil_r, !Nat.add_0_l.
  rewrite take_ge by lia. rewrite (drop_ge hdr0) by lia. rewrite app_nil_r.
  rewrite Hlen, drop_app_length. done.
Qed.

(** What a successful encryption has written. *)
Lemma encryptFile_Renamed pw input rand numCPU file :
  encryptFile pw input rand numCPU = Some (Renamed file) →
  ∃ h sk macKey cs rand',
    header_wf h ∧ keysOf pw h = Some (sk, macKey) ∧
    Salt h = take saltSize rand ∧
    ArgonTime h = defaultArgonTime ∧ ArgonMemory h = defaultArgonMemory ∧
    ArgonLanes h = defaultArgonLanes numCPU ∧
    Tag h = copyArray 64 (blake2b512 macKey (frames sk cs)) ∧
    file = encodeHeader h ++ frames sk cs ∧
    mjoin cs.*2 = input ∧
    Forall (λ c, 1 ≤ length c ≤ maxChunkSize) cs.*2 ∧
    Forall (λ n, length n = nonceSize) cs.*1 ∧ NoDup cs.*1 ∧
    rand = Salt h ++ mjoin cs.*1 ++ rand'.
Proof.
  unfold encryptFile. intros Henc.
  destruct (generateKey pw rand numCPU) as [[[skb h0] rand0] [e|]|] eqn:Hgen; [done| |done].
  apply generateKey_Return in Hgen as [[? _]|(_ & Hwf & Hrand & Ht & Hm & Hl & Hl1 & Hkeys)]; [done|].
  set (sk := copyArray 32 (take 32 skb)) in *.
  set (macKey := copyArray 32 (drop 32 skb)) in *.
  destruct (ioCopy _ _ _ _) as [[[[w f] n] [e|]|]|] eqn:Hcopy; [done| |done|done].
  apply ioCopy_encrypt in Hcopy as (_ & _ & cs & Hem & Hcat & Hlens); [|done].
  destruct Hem as (Hout & _ & Hr & Hnl & Hnd & _ & _).
  cbn [NewWriter EncWriter.out EncWriter.secretKey EncWriter.rand app] in Hout, Hr.
  cbv zeta in Henc.
  set (h := setTag h0 _) in Henc.
  rewrite content_rewritten in Henc
    by (rewrite !length_encodeHeader; unfold h, setTag; cbn [Salt Tag];
        rewrite length_copyArray; by destruct Hwf as (_ & _ & _ & _ & ->)).
  injection Henc as <-.
  assert (Hwf' : header_wf h).
  { destruct Hwf as (? & ? & ? & ? & ?). unfold header_wf, h, setTag.
    cbn [Salt ArgonTime ArgonMemory ArgonLanes Tag].
    by rewrite length_copyArray. }
  exists h, sk, macKey, cs, (EncWriter.rand w).
  rewrite Hout.
  split; [done|]. clear Hwf'. unfold h, setTag.
  cbn [Salt ArgonTime ArgonMemory ArgonLanes Tag keysOf].
  split; [exact Hkeys|].
  split; [rewrite Hrand, take_app_length'; [done|]; by destruct Hwf as [-> _]|].
  split_and!; try done.
  - by rewrite Hout.
  - rewrite Hrand at 1. by rewrite Hr.
Qed.

(** Decryption up to the comparison of the tag: the header is read back,
    the keys derived from it, and the whole region run through the MAC. *)
Lemma decryptFile_unfold pw h sk macKey region :
  header_wf h → keysOf pw h = Some (sk, macKey) →
  decryptFile pw (encodeHeader h ++ region) =
    if decide (copyArray 64 (blake2b512 macKey region) = Tag h) then
      match ioCopy (S (length (encodeHeader h ++ region))) ([] : bytes)
              (NewReader sk {| content := encodeHeader h ++ region; pos := headerSize |}) 0 with
      | None => None
      | Some (Panicked m) => Some (Crashed m)
      | Some (Return (output, _, _) (Some e)) => Some (Failed e output)
      | Some (Return (output, _, _) None) => Some (Renamed output)
      end
    else Some (Failed errBadMAC []).
Proof.
  intros Hwf Hkeys. unfold decryptFile.
  set (file := encodeHeader h ++ region).
  set (f0 := {| content := file; pos := 0 |}).
  destruct (readFull_enough f0 headerSize (encodeHeader h) region eq_refl
              (length_encodeHeader_wf h Hwf)) as [-> Hrem].
  cbn [pos f0 Nat.add] in *.
  set (f1 := seekTo f0 headerSize) in *.
  replace (decodeHeader (encodeHeader h)) with h
    by (rewrite <- (app_nil_r (encodeHeader h)); symmetry; by apply decodeHeader_encodeHeader).
  unfold keysOf in Hkeys.
  destruct (IDKey _ _ _ _ _ _) as [skb e|]; [|done].
  injection Hkeys as <- <-.
  destruct (ioCopy_file_buffer (S (length file)) [] f1 0) as (f2 & -> & Hc).
  { rewrite Hrem. unfold file. rewrite length_app. lia. }
  rewrite Hrem, app_nil_l.
  destruct (decide _); [|done].
  unfold seekTo. rewrite Hc. done.
Qed.

(** A file whose region is well-formed frames under the header's key and
    whose tag matches decrypts to the plaintext of the frames. *)
Lemma decryptFile_frames pw h sk macKey cs :
  header_wf h → keysOf pw h = Some (sk, macKey) →
  Tag h = copyArray 64 (blake2b512 macKey (frames sk cs)) →
  Forall (λ n, length n = nonceSize) cs.*1 →
  Forall (λ c, 1 ≤ length c ≤ maxChunkSize) cs.*2 →
  decryptFile pw (encodeHeader h ++ frames sk cs) = Some (Renamed (mjoin cs.*2)).
Proof.
  intros Hwf Hkeys Htag Hn Hl.
  rewrite (decryptFile_unfold pw h sk macKey) by done.
  rewrite decide_True by done.
  set (file := encodeHeader h ++ frames sk cs).
  set (b := NewReader sk {| content := file; pos := headerSize |}).
  assert (Hrem : remaining (DecReader.in_ b) = frames sk cs).
  { unfold remaining, b, file. cbn [NewReader DecReader.in_ content pos].
    apply drop_app_length'. by rewrite length_encodeHeader_wf. }
  assert (Hinv : reads_frames sk b cs).
  { unfold reads_frames. split_and!; try done. by left. }
  assert (Hfuel : length (mjoin cs.*2) < S (length file)).
  { pose proof (length_frames_ge sk cs). unfold file. rewrite length_app. lia. }
  destruct (ioCopy_decrypt sk (S (length file)) b cs [] 0 (mjoin cs.*2) Hinv eq_refl Hfuel)
    as (b' & ->).
  done.
Qed.

(** A file whose tag does not match is rejected before any decryption:
    errBadMAC, and nothing was written to the temporary output. *)
Lemma decryptFile_bad_tag pw h sk macKey region :
  header_wf h → keysOf pw h = Some (sk, macKey) →
  copyArray 64 (blake2b512 macKey region) ≠ Tag h →
  decryptFile pw (encodeHeader h ++ region) = Some (Failed errBadMAC []).
Proof.
  intros Hwf Hkeys Htag.
  rewrite (decryptFile_unfold pw h sk macKey) by done.
  by rewrite decide_False.
Qed.
End files.

(** ** Failed and repeated Reads *)

Lemma readFull_ok f n f' d :
  readFull f n = (f', d, None) → length d = n ∧ content f' = content f.
Proof.
  unfold readFull. intros Hr.
  destruct (decide (n = 0)) as [->|Hn]; [by injection Hr as <- <-|].
  destruct (decide (length (take n (remaining f)) = 0)); [done|].
  destruct (decide (length (take n (remaining f)) < n)) as [|Hge]; [done|].
  injection Hr as <- <-. split; [|done].
  rewrite length_take in *. lia.
Qed.

Section decryptor_errors.
Context `{!AEAD}.

(** A failed [nextChunk] changes nothing but the offset of the source;
    when it failed for lack of bytes, the source is exhausted. *)
Lemma nextChunk_error b b' e :
  nextChunk b = (b', Some e) →
  DecReader.index b' = DecReader.index b ∧
  DecReader.buf b' = DecReader.buf b ∧
  DecReader.secretKey b' = DecReader.secretKey b ∧
  (e = EOF ∨ e = ErrUnexpectedEOF → remaining (DecReader.in_ b') = []).
Proof.
  unfold nextChunk. intros Hn.
  destruct (readFull (DecReader.in_ b) nonceSize) as [[f1 nonce] [e1|]] eqn:Hr1.
  { injection Hn as <- <-. apply readFull_error in Hr1 as (_ & _ & Hrem). done. }
  destruct (readFull f1 8) as [[f2 sz] [e2|]] eqn:Hr2.
  { injection Hn as <- <-. apply readFull_error in Hr2 as (_ & _ & Hrem). done. }
  destruct (decide _).
  { injection Hn as <- <-. split_and!; try done. by intros [|]. }
  destruct (readFull f2 _) as [[f3 chunkData] [e3|]] eqn:Hr3.
  { injection Hn as <- <-. apply readFull_error in Hr3 as (_ & _ & Hrem). done. }
  destruct (open _ _ _); [done|].
  injection Hn as <- <-. split_and!; try done. by intros [|].
Qed.

(** A successful [nextChunk] installs a chunk of at most [maxChunkSize]
    bytes. *)
Lemma nextChunk_ok b b' :
  nextChunk b = (b', None) →
  DecReader.index b' = DecReader.index b ∧
  length (DecReader.buf b') ≤ maxChunkSize.
Proof.
  unfold nextChunk. intros Hn.
  destruct (readFull (DecReader.in_ b) nonceSize) as [[f1 nonce] [e1|]] eqn:Hr1; [done|].
  destruct (readFull f1 8) as [[f2 sz] [e2|]] eqn:Hr2; [done|].
  destruct (decide _) as [|Hsize]; [done|].
  destruct (readFull f2 _) as [[f3 chunkData] [e3|]] eqn:Hr3; [done|].
  destruct (open _ _ _) as [p|] eqn:Hopen; [|done].
  injection Hn as <-. split; [done|]. cbn [DecReader.buf].
  apply open_length in Hopen. apply readFull_ok in Hr3 as [Hlen _].
  unfold overhead in *. lia.
Qed.


(** The current chunk never exceeds [maxChunkSize] bytes. *)
Lemma readLoop_buf_bound n : ∀ b got b' data err,
  length (DecReader.buf b) ≤ maxChunkSize →
  readLoop n b got = Return (b', data) err →
  length (DecReader.buf b') ≤ maxChunkSize.
Proof.
  induction n as [|n IH]; intros b got b' data err Hb Hread.
  { by injection Hread as <- <- <-. }
  cbn [readLoop] in Hread.
  destruct (decide (DecReader.index b = 0)) as [Hz|Hnz].
  - destruct (nextChunk b) as [b1 [e1|]] eqn:Hnext.
    + injection Hread as <- <- <-.
      apply nextChunk_error in Hnext as (_ & -> & _). done.
    + apply nextChunk_ok in Hnext as [_ Hle].
      destruct (DecReader.buf b1 !! DecReader.index b1); [|done].
      by apply IH in Hread.
  - destruct (DecReader.buf b !! DecReader.index b); [|done].
    by apply IH in Hread.
Qed.


Lemma enc_reachable_bound w0 w :
  EncWriter.buf w0 = [] → enc_reachable w0 w →
  length (EncWriter.buf w) ≤ maxChunkSize.
Proof.
  intros Hnew Hreach. induction Hreach as [|w p i w' err _ IH Hloop|w p n w' err _ IH Hw].
  - rewrite Hnew. simpl. lia.
  - by apply writeLoop_Return in Hloop as (_ & _ & Hle & _).
  - apply Write_Return in Hw as (_ & _ & -> & _); [simpl; lia|done].
Qed.

Lemma dec_reachable_bound b0 b :
  DecReader.buf b0 = [] → dec_reachable b0 b →
  length (DecReader.buf b) ≤ maxChunkSize.
Proof.
  intros Hnew Hreach. induction Hreach as [|b n b' data err _ IH Hread].
  - rewrite Hnew. simpl. lia.
  - by apply readLoop_buf_bound in Hread.
Qed.
End decryptor_errors.

(** ** Encryption returns *)

Section encryptor_returns.
Context `{!AEAD}.

Lemma writeChunk_supply w k :
  fresh_nonces (EncWriter.usedNonces w) (EncWriter.rand w) (S k) →
  ∃ w', writeChunk w = Return w' None ∧ EncWriter.buf w' = [] ∧
        fresh_nonces (EncWriter.usedNonces w') (EncWriter.rand w') k.
Proof.
  intros (Hlen & Hfresh & Hrest).
  eexists. split.
  - apply (writeChunk_fresh w (take nonceSize (EncWriter.rand w))
             (drop nonceSize (EncWriter.rand w))); [|rewrite length_take; lia|done].
    by rewrite take_drop.
  - done.
Qed.

Lemma writeLoop_supply p : ∀ w i k,
  length (EncWriter.buf w) ≤ maxChunkSize →
  fresh_nonces (EncWriter.usedNonces w) (EncWriter.rand w) k →
  length (EncWriter.buf w) + length p ≤ k * maxChunkSize →
  ∃ w' k', writeLoop w p i = Return (w', i + length p) None ∧
           fresh_nonces (EncWriter.usedNonces w') (EncWriter.rand w') k' ∧
           k' ≤ k ∧
           length (EncWriter.buf w') + (k - k') * maxChunkSize
             = length (EncWriter.buf w) + length p.
Proof.
  induction p as [|b p IH]; intros w i k Hbuf Hsup Hk.
  - exists w, k. simpl. rewrite Nat.add_0_r, Nat.sub_diag. split_and!; first [done|lia].
  - cbn [writeLoop]. simpl in Hk. pose proof maxChunkSize_pos as Hpos.
    destruct (decide (length (EncWriter.buf w) = maxChunkSize)) as [Hfull|Hroom].
    + destruct k as [|k]; [simpl in Hk; lia|].
      destruct (writeChunk_supply w k Hsup) as (w1 & -> & Hnil & Hsup1).
      destruct (IH (appendByte w1 b) (S i) k) as (w' & k' & -> & Hsup' & Hle & Hacc).
      { simpl. rewrite Hnil. simpl. lia. }
      { done. }
      { simpl. rewrite Hnil. simpl. simpl in Hk. lia. }
      exists w', k'. split; [do 2 f_equal; simpl; lia|]. split; [done|]. split; [lia|].
      simpl in Hacc. rewrite Hnil in Hacc. simpl in Hacc.
      replace (S k - k') with (S (k - k')) by lia. simpl. lia.
    + destruct (IH (appendByte w b) (S i) k) as (w' & k' & -> & Hsup' & Hle & Hacc).
      { simpl. rewrite length_app. simpl. lia. }
      { done. }
      { simpl. rewrite length_app. simpl. lia. }
      exists w', k'. split; [do 2 f_equal; simpl; lia|]. split; [done|]. split; [lia|].
      simpl in Hacc. rewrite length_app in Hacc. simpl in Hacc. simpl. lia.
Qed.

(** A Write of at least one byte returns when the tape holds enough fresh
    nonces: one for every [maxChunkSize] bytes, the last chunk included. *)
Lemma Write_supply w p k :
  EncWriter.buf w = [] → p ≠ [] →
  fresh_nonces (EncWriter.usedNonces w) (EncWriter.rand w) k →
  length p ≤ k * maxChunkSize →
  ∃ w' k' l, EncWriter_Write w p = Return (w', length p) None ∧
             EncWriter.buf w' = [] ∧
             fresh_nonces (EncWriter.usedNonces w') (EncWriter.rand w') k' ∧
             S k' ≤ k ∧ 1 ≤ l ≤ maxChunkSize ∧
             l + (k - S k') * maxChunkSize = length p.
Proof.
  intros Hnil Hp Hsup Hk. unfold EncWriter_Write.
  destruct (writeLoop_supply p w 0 k) as (w1 & k1 & Hloop & Hsup1 & Hle & Hacc);
    [rewrite Hnil; simpl; lia|done|rewrite Hnil; simpl; lia|].
  rewrite Hloop.
  apply writeLoop_Return in Hloop as (_ & _ & Hb1 & Hne & _); [|rewrite Hnil; simpl; lia].
  rewrite Hnil in Hne, Hacc. simpl in Hne, Hacc. specialize (Hne Hp).
  assert (Hl : 1 ≤ length (EncWriter.buf w1))
    by (destruct (EncWriter.buf w1); [done|simpl; lia]).
  destruct k1 as [|k1].
  { rewrite Nat.sub_0_r in Hacc. pose proof maxChunkSize_pos.
    exfalso. destruct (decide (length (EncWriter.buf w1) = 0)); lia. }
  destruct (writeChunk_supply w1 k1 Hsup1) as (w2 & -> & Hnil2 & Hsup2).
  exists w2, k1, (length (EncWriter.buf w1)). split_and!; try done; lia.
Qed.
End encryptor_returns.

Section encrypt_returns.
Context `{!AEAD, !MAC, !KDF}.

Lemma ioCopy_supply fuel : ∀ w f written k,
  EncWriter.buf w = [] →
  fresh_nonces (EncWriter.usedNonces w) (EncWriter.rand w) k →
  length (remaining f) ≤ k * maxChunkSize →
  length (remaining f) < fuel →
  ∃ w' f', ioCopy fuel w f written
             = Some (Return (w', f', written + length (remaining f)) None).
Proof.
  induction fuel as [|fuel IH]; intros w f written k Hnil Hsup Hk Hfuel; [lia|].
  cbn [ioCopy]. change (Read f copyBufSize) with (fileRead f copyBufSize).
  pose proof copyBufSize_pos as Hpos.
  unfold fileRead. rewrite decide_False by lia.
  destruct (decide (take copyBufSize (remaining f) = [])) as [Hend|Hd].
  - assert (remaining f = []) as ->.
    { destruct (remaining f); [done|]. destruct copyBufSize; [lia|done]. }
    simpl. rewrite Nat.add_0_r. by eexists _, _.
  - set (d := take copyBufSize (remaining f)) in *.
    set (f1 := seekTo f (pos f + length d)).
    assert (Hrem : remaining f = d ++ remaining f1).
    { unfold remaining, f1, seekTo. cbn [content pos].
      rewrite <- drop_drop. fold (remaining f). unfold d.
      rewrite length_take.
      destruct (decide (copyBufSize ≤ length (remaining f))).
      - rewrite Nat.min_l by done. by rewrite take_drop.
      - rewrite Nat.min_r by lia. rewrite take_ge by lia.
        by rewrite drop_all, app_nil_r. }
    assert (Hdlen : length d = copyBufSize ∨ remaining f1 = []).
    { unfold d. rewrite length_take.
      destruct (decide (copyBufSize ≤ length (remaining f))); [left; lia|right].
      unfold remaining, f1, seekTo. cbn [content pos].
      rewrite <- drop_drop. fold (remaining f). apply drop_ge.
      unfold d. rewrite length_take. lia. }
    assert (Hlen : length (remaining f) = length d + length (remaining f1))
      by (rewrite Hrem at 1; apply length_app).
    assert (Hd1 : 1 ≤ length d) by (destruct d; [done|simpl; lia]).
    rewrite decide_True by lia.
    change (Write w d) with (EncWriter_Write w d).
    destruct (Write_supply w d k Hnil Hd Hsup) as (w1 & k1 & l & -> & Hnil1 & Hsup1 & Hle & Hl & Hacc);
      [lia|].
    rewrite decide_False by lia. rewrite decide_True by done.
    destruct (IH w1 f1 (written + length d) k1) as (w' & f' & ->); try done.
    + destruct Hdlen as [Hfull| ->]; [|simpl; lia].
      assert (Hbuf : copyBufSize = 2 * maxChunkSize) by sizes.
      assert (Hm : k - S k1 = 1).
      { destruct (k - S k1) as [|[|m]]; simpl in Hacc; lia. }
      assert (k = S (S k1)) as -> by lia.
      rewrite Hm in Hacc. simpl in *. lia.
    + lia.
    + eexists _, _. by rewrite Hlen, Nat.add_assoc.
Qed.

(** Encryption returns a file whenever the lanes value is accepted by
    Argon2 and the entropy tape holds a salt and then one fresh nonce for
    every [maxChunkSize] bytes of input. *)
Lemma encryptFile_succeeds pw P rand numCPU k :
  (1 ≤ defaultArgonLanes numCPU)%Z →
  saltSize ≤ length rand →
  fresh_nonces ∅ (drop saltSize rand) k →
  length P ≤ k * maxChunkSize →
  ∃ file, encryptFile pw P rand numCPU = Some (Renamed file).
Proof.
  intros Hlanes Hsalt Hsup Hk. unfold encryptFile, generateKey.
  rewrite decide_False by lia.
  cbn [Salt ArgonTime ArgonMemory ArgonLanes]. unfold IDKey.
  rewrite decide_False by (unfold defaultArgonTime; lia).
  rewrite decide_False by lia.
  set (sk := copyArray 32 _). set (w := NewWriter sk [] _).
  assert (Hrem : remaining {| content := P; pos := 0 |} = P) by done.
  destruct (ioCopy_supply (S (length P)) w {| content := P; pos := 0 |} 0 k)
    as (w' & f' & Hcopy); [done|exact Hsup|rewrite Hrem; lia|rewrite Hrem; lia|].
  cbn [content] in *. rewrite Hcopy. by eexists.
Qed.

(** The bound on the number of Reads of the copy is never reached. *)
Lemma encryptFile_returns pw P rand numCPU : encryptFile pw P rand numCPU ≠ None.
Proof.
  unfold encryptFile.
  destruct (generateKey pw rand numCPU) as [[[skb h] rand'] [e|]|]; [done| |done].
  set (w := NewWriter _ _ _).
  pose proof (ioCopy_file_fuel (S (length P)) w {| content := P; pos := 0 |} 0) as Hfuel.
  cbn [content] in *.
  destruct (ioCopy _ _ _ _) as [[[[? ?] ?] [?|]|]|]; try done.
  exfalso. apply Hfuel; [|done].
  change (remaining {| content := P; pos := 0 |}) with P. lia.
Qed.
End encrypt_returns.

(** * The claims of the specification *)

Section claims.
Context `{!AEAD, !MAC, !KDF}.

(** C1. Round trip: for every passphrase and every plaintext, of any
    length, the file that [encryptFile] produces decrypts under the same
    passphrase to exactly that plaintext. ([encryptFile_succeeds] says when
    a file is produced.) *)
Theorem encrypt_decrypt_roundtrip pw P rand numCPU file :
  encryptFile pw P rand numCPU = Some (Renamed file) →
  decryptFile pw file = Some (Renamed P).
Proof.
  intros Henc.
  apply encryptFile_Renamed in Henc
    as (h & sk & macKey & cs & rand' & Hwf & Hkeys & _ & _ & _ & _ & Htag & -> & <- & Hl & Hn & _).
  by apply (decryptFile_frames pw h sk macKey cs).
Qed.

(** C2. Authentication: take a file produced by [encryptFile] whose
    ciphertext region (everything after the header) is not empty, and
    replace the region by a single-byte mutation or a truncation of it.
    Provided BLAKE2b tells the two regions apart under the file's MAC key,
    which is what the MAC is assumed to do, [decryptFile] fails with
    errBadMAC, and no byte of output was written. *)
Theorem tampered_region_is_rejected pw P rand numCPU file region' sk macKey :
  encryptFile pw P rand numCPU = Some (Renamed file) →
  drop headerSize file ≠ [] →
  single_byte_mutation (drop headerSize file) region' ∨
    truncation (drop headerSize file) region' →
  keysOf pw (decodeHeader (take headerSize file)) = Some (sk, macKey) →
  blake2b512 macKey region' ≠ blake2b512 macKey (drop headerSize file) →
  decryptFile pw (take headerSize file ++ region') = Some (Failed errBadMAC []).
Proof.
  intros Henc _ _ Hk Hmac.
  apply encryptFile_Renamed in Henc
    as (h & sk0 & macKey0 & cs & rand' & Hwf & Hkeys & _ & _ & _ & _ & Htag & Hfile & _).
  assert (Hh : take headerSize file = encodeHeader h).
  { rewrite Hfile. apply take_app_length'. by rewrite length_encodeHeader_wf. }
  assert (Hr : drop headerSize file = frames sk0 cs).
  { rewrite Hfile. apply drop_app_length'. by rewrite length_encodeHeader_wf. }
  rewrite Hh in Hk |- *. rewrite Hr in Hmac.
  rewrite <- (app_nil_r (encodeHeader h)), decodeHeader_encodeHeader in Hk by done.
  rewrite Hkeys in Hk. injection Hk as -> ->.
  apply (decryptFile_bad_tag pw h sk macKey); [done|done|].
  rewrite Htag.
  rewrite !copyArray_id by apply blake2b512_length. done.
Qed.

(** C3, as amended. The header that [encryptFile] writes at offset 0 is
    105 bytes (not 141): the 32-byte salt at offset 0, argon_time as a
    little-endian uint32 at 32, argon_memory as a little-endian uint32 at
    36, argon_lanes as one byte at 40 and the 64-byte tag at 41, without
    padding. The ciphertext region, a sequence of chunk frames, begins
    immediately after it, at offset 105; the tag is the MAC of exactly
    that region. *)
Theorem header_layout pw P rand numCPU file :
  encryptFile pw P rand numCPU = Some (Renamed file) →
  ∃ h sk macKey cs,
    header_wf h ∧ keysOf pw h = Some (sk, macKey) ∧
    length (encodeHeader h) = 105 ∧
    take 105 file = encodeHeader h ∧
    take 32 file = Salt h ∧
    take 4 (drop 32 file) = putUintLE 4 (ArgonTime h) ∧
    take 4 (drop 36 file) = putUintLE 4 (ArgonMemory h) ∧
    take 1 (drop 40 file) = putUintLE 1 (ArgonLanes h) ∧
    take 64 (drop 41 file) = Tag h ∧
    drop 105 file = frames sk cs ∧
    Tag h = blake2b512 macKey (drop 105 file).
Proof.
  intros Henc.
  apply encryptFile_Renamed in Henc
    as (h & sk & macKey & cs & rand' & Hwf & Hkeys & _ & _ & _ & _ & Htag & -> & _).
  exists h, sk, macKey, cs.
  pose proof (length_encodeHeader_wf h Hwf) as Hlen.
  change headerSize with 105 in Hlen.
  split; [exact Hwf|].
  destruct Hwf as (Hs & _ & _ & _ & Ht).
  assert (Hlen4 : ∀ v, 4 = length (putUintLE 4 v)) by (intros; by rewrite length_putUintLE).
  assert (Hlen1 : ∀ v, 1 = length (putUintLE 1 v)) by (intros; by rewrite length_putUintLE).
  assert (Hdrop : drop 105 (encodeHeader h ++ frames sk cs) = frames sk cs)
    by (by apply drop_app_length').
  split_and!; try done.
  - by apply take_app_length'.
  - unfold encodeHeader. rewrite <- !app_assoc. by apply take_app_length'.
  - unfold encodeHeader. rewrite <- !app_assoc.
    rewrite drop_app_length' by done. by apply take_app_length'.
  - unfold encodeHeader. rewrite <- !app_assoc. rewrite (app_assoc (Salt h)).
    rewrite drop_app_length' by (rewrite length_app, length_putUintLE; lia).
    by apply take_app_length'.
  - unfold encodeHeader. rewrite <- !app_assoc.
    rewrite (app_assoc (Salt h)), (app_assoc (Salt h ++ _)).
    rewrite drop_app_length' by (rewrite !length_app, !length_putUintLE; lia).
    by apply take_app_length'.
  - unfold encodeHeader. rewrite <- !app_assoc.
    rewrite (app_assoc (Salt h)), (app_assoc (Salt h ++ _)),
      (app_assoc ((Salt h ++ _) ++ _)).
    rewrite drop_app_length' by (rewrite !length_app, !length_putUintLE; lia).
    by apply take_app_length'.
  - rewrite Hdrop, Htag. by rewrite copyArray_id by apply blake2b512_length.
Qed.

(** C4. Nonce uniqueness: whatever Write calls a caller makes on a new
    encryptor, the frames found by scanning its output carry pairwise
    different nonces, exactly those recorded in [usedNonces]; [writeChunk]
    looks a freshly drawn nonce up in that set before it emits, and when
    the nonce is already there it panics, returning no writer and emitting
    no frame. In particular the frames found by scanning the ciphertext
    region of a file written by [encryptFile] have pairwise different
    nonces. *)
Theorem nonces_are_unique :
  (∀ sk rand ps w' err,
     writeAll (NewWriter sk [] rand) ps = Return w' err →
     ∃ fs, scanFrames (length (EncWriter.out w')) (EncWriter.out w') = Some fs ∧
           NoDup fs.*1 ∧
           EncWriter.usedNonces w' = list_to_set fs.*1) ∧
  (∀ w, nonceSize ≤ length (EncWriter.rand w) →
        take nonceSize (EncWriter.rand w) ∈ EncWriter.usedNonces w →
        writeChunk w = Panicked "nonce reuse") ∧
  (∀ pw P rand numCPU file,
     encryptFile pw P rand numCPU = Some (Renamed file) →
     ∃ fs, scanFrames (length file) (drop headerSize file) = Some fs ∧
           NoDup fs.*1).
Proof.
  assert (Hfst : ∀ sk (cs : list (bytes * bytes)),
            ((λ c, (c.1, seal sk c.1 c.2)) <$> cs).*1 = cs.*1).
  { intros sk cs. rewrite <- list_fmap_compose. by apply list_fmap_ext. }
  split_and!.
  - intros sk rand ps w' err Hall.
    apply writeAll_Return in Hall as (_ & _ & cs & Hem & _ & Hle & _); [|done].
    destruct Hem as (Hout & _ & _ & Hnl & Hnd & _ & Hused).
    cbn [NewWriter EncWriter.out EncWriter.secretKey EncWriter.usedNonces app] in Hout, Hused.
    eexists. rewrite Hout. split.
    + apply scanFrames_frames; [done|done|apply length_frames_count].
    + rewrite Hfst. split; [done|]. rewrite Hused. set_solver.
  - apply writeChunk_reuse.
  - intros pw P rand numCPU file Henc.
    apply encryptFile_Renamed in Henc
      as (h & sk & macKey & cs & rand' & Hwf & _ & _ & _ & _ & _ & _ & -> & _ & Hl & Hnl & Hnd & _).
    eexists. rewrite drop_app_length' by (by rewrite length_encodeHeader_wf).
    split.
    + apply scanFrames_frames; [done| |].
      * eapply Forall_impl; [exact Hl|]. simpl. lia.
      * pose proof (length_frames_count sk cs). rewrite length_app. lia.
    + by rewrite Hfst.
Qed.

(** C5. Chunking: one Write of [maxChunkSize + 1 = 16385] bytes on a new
    encryptor, with two different nonces on the entropy tape, returns and
    has emitted exactly two frames, the first with the first 16384 bytes
    of plaintext, the second with the last byte. In general the frames
    emitted over any sequence of Write calls carry at most 16384 bytes of
    plaintext each, and their plaintexts in order of emission are the
    submitted bytes in order of submission. *)
Theorem write_chunking :
  (∀ sk out n1 n2 rest p,
     length p = S maxChunkSize →
     length n1 = nonceSize → length n2 = nonceSize → n1 ≠ n2 →
     ∃ w', EncWriter_Write (NewWriter sk out (n1 ++ n2 ++ rest)) p
             = Return (w', S maxChunkSize) None ∧
           EncWriter.out w' =
             out ++ frames sk [(n1, take maxChunkSize p); (n2, drop maxChunkSize p)] ∧
           length (take maxChunkSize p) = maxChunkSize ∧
           length (drop maxChunkSize p) = 1) ∧
  (∀ sk out rand ps w' err,
     writeAll (NewWriter sk out rand) ps = Return w' err →
     ∃ cs, EncWriter.out w' = out ++ frames sk cs ∧
           Forall (λ c, length c ≤ maxChunkSize) cs.*2 ∧
           mjoin cs.*2 = mjoin ps).
Proof.
  split.
  - intros sk out n1 n2 rest p Hp Hn1 Hn2 Hne.
    assert (Htake : length (take maxChunkSize p) = maxChunkSize)
      by (rewrite length_take; lia).
    assert (Hdrop : length (drop maxChunkSize p) = 1)
      by (rewrite length_drop; lia).
    destruct (drop maxChunkSize p) as [|x [|? ?]] eqn:Hlast; try done.
    unfold EncWriter_Write.
    replace (writeLoop (NewWriter sk out (n1 ++ n2 ++ rest)) p 0)
      with (writeLoop (NewWriter sk out (n1 ++ n2 ++ rest)) (take maxChunkSize p ++ [x]) 0)
      by (by rewrite <- Hlast, take_drop).
    rewrite writeLoop_app.
    rewrite writeLoop_fill by (cbn [NewWriter EncWriter.buf]; simpl; lia).
    cbn [NewWriter EncWriter.buf EncWriter.out EncWriter.usedNonces
         EncWriter.secretKey EncWriter.rand app writeLoop].
    rewrite decide_True by done.
    erewrite writeChunk_fresh; [|reflexivity|exact Hn1|set_solver].
    cbn [appendByte EncWriter.buf EncWriter.out EncWriter.usedNonces
         EncWriter.secretKey EncWriter.rand app].
    erewrite writeChunk_fresh; [|reflexivity|exact Hn2|set_solver].
    cbn [EncWriter.buf EncWriter.out EncWriter.usedNonces
         EncWriter.secretKey EncWriter.rand app].
    eexists. rewrite Hp. split; [reflexivity|].
    unfold frames, appendByte.
    cbn [fmap list_fmap mjoin list_join fst snd EncWriter.buf EncWriter.out
         EncWriter.secretKey app].
    rewrite app_nil_r, <- !app_assoc. done.
  - intros sk out rand ps w' err Hall.
    apply writeAll_Return in Hall as (_ & _ & cs & Hem & Hcat & Hle & _); [|done].
    destruct Hem as (Hout & _). by exists cs.
Qed.

(** C6, as amended. [encryptFile] on an empty input writes no chunk frame
    at all: the file is the 105-byte header alone and the ciphertext
    region is empty, because io.Copy never calls Write when there is
    nothing to copy and nothing flushes afterwards. Only a Write call
    with an empty slice emits a frame with zero bytes of plaintext, the
    48 bytes of nonce, length and AEAD tag. *)
Theorem empty_input_writes_no_chunk :
  (∀ pw rand numCPU file,
     encryptFile pw [] rand numCPU = Some (Renamed file) →
     length file = headerSize ∧ drop headerSize file = []) ∧
  (∀ sk out nonce rest,
     length nonce = nonceSize →
     ∃ w', EncWriter_Write (NewWriter sk out (nonce ++ rest)) []
             = Return (w', 0) None ∧
           EncWriter.out w' = out ++ frame sk nonce [] ∧
           length (frame sk nonce []) = 48).
Proof.
  split.
  - intros pw rand numCPU file Henc.
    apply encryptFile_Renamed in Henc
      as (h & sk & macKey & cs & rand' & Hwf & _ & _ & _ & _ & _ & _ & -> & Hcat & Hl & _).
    assert (cs = []) as ->.
    { destruct cs as [|[n p] cs]; [done|].
      rewrite fmap_cons in Hcat, Hl. apply Forall_cons in Hl as [Hp _].
      simpl in Hcat. apply app_eq_nil in Hcat as [-> _]. simpl in Hp. lia. }
    rewrite frames_nil, app_nil_r.
    split; [by apply length_encodeHeader_wf|].
    apply drop_ge. by rewrite length_encodeHeader_wf.
  - intros sk out nonce rest Hn.
    unfold EncWriter_Write. cbn [writeLoop].
    erewrite writeChunk_fresh; [|reflexivity|exact Hn|set_solver].
    eexists. split; [reflexivity|]. split; [done|].
    rewrite length_frame, Hn. done.
Qed.


(** After an oversize length the next Read succeeds when a well-formed
    frame follows, whatever the AEAD. *)
Lemma read_after_oversize_succeeds sk nonce x input :
  length nonce = nonceSize →
  remaining input =
    replicate nonceSize Byte.x00 ++ putUintLE 8 (Z.of_nat (maxChunkSize + 17))
      ++ frame sk nonce [x] →
  ∃ b1 b2,
    DecReader_Read (NewReader sk input) 1 = Return (b1, []) (Some errChunkTooLarge) ∧
    DecReader_Read b1 1 = Return (b2, [x]) None.
Proof.
  intros Hn Hrem.
  destruct (readFull_enough input nonceSize _ _ Hrem (length_replicate _ _)) as [Hr1 Hrem1].
  set (f1 := seekTo input (pos input + nonceSize)) in *.
  destruct (readFull_enough f1 8 _ _ Hrem1 (length_putUintLE _ _)) as [Hr2 Hrem2].
  set (f2 := seekTo f1 (pos f1 + 8)) in *.
  assert (Hfirst : DecReader_Read (NewReader sk input) 1
                   = Return (DecReader.mk f2 [] 0 sk, []) (Some errChunkTooLarge)).
  { unfold DecReader_Read. cbn [readLoop NewReader DecReader.index].
    rewrite decide_True by done. unfold nextChunk.
    cbn [NewReader DecReader.in_ DecReader.buf DecReader.index DecReader.secretKey].
    rewrite Hr1, Hr2.
    rewrite getUintLE_putUintLE_small
      by (change (256 ^ Z.of_nat 8)%Z with (2 ^ 64)%Z; sizes).
    rewrite decide_True by lia. done. }
  destruct (nextChunk_frame (DecReader.mk f2 [] 0 sk) nonce [x] [])
    as (f3 & Hnext & _); [by rewrite app_nil_r|done|simpl; sizes|].
  eexists _, _. split; [exact Hfirst|].
  unfold DecReader_Read. cbn [readLoop DecReader.index].
  rewrite decide_True by done. rewrite Hnext. done.
Qed.

(** Where the code does what C8 says: for a CPU count from 1 to 127 the
    lanes value that [generateKey] puts in the header is twice the CPU
    count, between 2 and 254, equal to its clamp to 1..255, and not 0. *)
Theorem default_lanes_up_to_127_cpus numCPU :
  (1 ≤ numCPU ≤ 127)%Z →
  defaultArgonLanes numCPU = (2 * numCPU)%Z ∧
  defaultArgonLanes numCPU = clampedLanes numCPU ∧
  (2 ≤ defaultArgonLanes numCPU ≤ 254)%Z ∧
  (∀ pw rand, saltSize ≤ length rand →
     ∃ skb h rand', generateKey pw rand numCPU = Return (skb, h, rand') None ∧
                    ArgonLanes h = (2 * numCPU)%Z).
Proof.
  intros Hcpu.
  assert (Hl : defaultArgonLanes numCPU = (2 * numCPU)%Z).
  { unfold defaultArgonLanes, uint8. rewrite Z.mod_small; lia. }
  split; [done|]. split; [unfold clampedLanes; lia|]. split; [lia|].
  intros pw rand Hrand. unfold generateKey.
  rewrite decide_False by lia.
  cbn [Salt ArgonTime ArgonMemory ArgonLanes]. unfold IDKey.
  rewrite decide_False by (unfold defaultArgonTime; lia).
  rewrite decide_False by lia.
  eexists _, _, _. split; [reflexivity|]. done.
Qed.

(** C8, the code at the failing input. With 128 logical CPUs the
    conversion [uint8(runtime.NumCPU() * 2)] wraps 256 to 0, where twice
    the CPU count clamped to 1..255 is 255: the lanes value is 0. On
    every passphrase and entropy tape [generateKey] then returns no
    header: it panics inside argon2.IDKey as soon as the salt was drawn
    (and returns the entropy error otherwise), so [encryptFile] never
    puts a file in place. *)
Theorem lanes_wrap_to_zero_at_128_cpus :
  defaultArgonLanes 128 = 0%Z ∧ clampedLanes 128 = 255%Z ∧
  (∀ pw rand,
     generateKey pw rand 128 =
       if decide (length rand < saltSize)
       then Return ([], {| Salt := replicate 32 Byte.x00; ArgonTime := 0;
                           ArgonMemory := 0; ArgonLanes := 0;
                           Tag := replicate 64 Byte.x00 |}, rand) (Some errEntropy)
       else Panicked "argon2: parallelism degree too low") ∧
  (∀ pw P rand,
     encryptFile pw P rand 128 =
       Some (if decide (length rand < saltSize) then Failed errGenerateKey []
             else Crashed "argon2: parallelism degree too low")) ∧
  (∀ pw P rand file, encryptFile pw P rand 128 ≠ Some (Renamed file)).
Proof.
  assert (Hl : defaultArgonLanes 128 = 0%Z) by reflexivity.
  assert (Hgen : ∀ pw rand,
     generateKey pw rand 128 =
       if decide (length rand < saltSize)
       then Return ([], {| Salt := replicate 32 Byte.x00; ArgonTime := 0;
                           ArgonMemory := 0; ArgonLanes := 0;
                           Tag := replicate 64 Byte.x00 |}, rand) (Some errEntropy)
       else Panicked "argon2: parallelism degree too low").
  { intros pw rand. unfold generateKey.
    destruct (decide (length rand < saltSize)); [done|].
    cbn [Salt ArgonTime ArgonMemory ArgonLanes]. unfold IDKey.
    rewrite decide_False by (unfold defaultArgonTime; lia).
    rewrite Hl. by rewrite decide_True by lia. }
  assert (Henc : ∀ pw P rand,
     encryptFile pw P rand 128 =
       Some (if decide (length rand < saltSize) then Failed errGenerateKey []
             else Crashed "argon2: parallelism degree too low")).
  { intros pw P rand. unfold encryptFile. rewrite Hgen.
    by destruct (decide (length rand < saltSize)). }
  split; [done|]. split; [reflexivity|]. split; [exact Hgen|]. split; [exact Henc|].
  intros pw P rand file. rewrite Henc. by destruct (decide _).
Qed.

(** C9. Memory bound: in every state an encryptor passes through, new,
    after a Write, or after any number of iterations of the loop of a
    Write, its buffer holds at most [3 * maxChunkSize] bytes (in fact at
    most [maxChunkSize]); and in every state a decryptor passes through,
    new or after any Read, failed or not, its decrypted chunk holds at
    most [3 * maxChunkSize] bytes (in fact at most [maxChunkSize]). The
    size of the input plays no part. *)
Theorem buffers_stay_bounded :
  (∀ sk out rand w,
     enc_reachable (NewWriter sk out rand) w →
     length (EncWriter.buf w) ≤ maxChunkSize ∧
     length (EncWriter.buf w) ≤ 3 * maxChunkSize) ∧
  (∀ sk input b,
     dec_reachable (NewReader sk input) b →
     length (DecReader.buf b) ≤ maxChunkSize ∧
     length (DecReader.buf b) ≤ 3 * maxChunkSize).
Proof.
  split.
  - intros sk out rand w Hreach.
    apply enc_reachable_bound in Hreach; [lia|done].
  - intros sk input b Hreach.
    apply dec_reachable_bound in Hreach; [lia|done].
Qed.

(** C10, the code at the failing input. A Write of an empty slice emits a
    frame whose plaintext has zero bytes, and a Read of one byte from a
    source holding that frame decrypts it and then indexes the empty
    chunk: it panics. *)
Theorem Read_panics_on_empty_chunk sk rest :
  (∃ w, EncWriter_Write (NewWriter sk [] (replicate nonceSize Byte.x00 ++ rest)) []
          = Return (w, 0) None ∧
        EncWriter.out w = frame sk (replicate nonceSize Byte.x00) []) ∧
  DecReader_Read
    (NewReader sk {| content := frame sk (replicate nonceSize Byte.x00) []; pos := 0 |}) 1
  = Panicked "index out of range".
Proof.
  split.
  - unfold EncWriter_Write. cbn [writeLoop].
    erewrite writeChunk_fresh;
      [|reflexivity|by rewrite length_replicate|set_solver].
    eexists. split; [reflexivity|]. done.
  - set (input := {| content := _; pos := 0 |}).
    destruct (nextChunk_frame (NewReader sk input) (replicate nonceSize Byte.x00) [] [])
      as (f' & Hnext & _);
      [by rewrite app_nil_r|by rewrite length_replicate|simpl; lia|].
    unfold DecReader_Read. cbn [readLoop NewReader DecReader.index].
    rewrite decide_True by done.
    cbn [NewReader DecReader.index DecReader.secretKey] in Hnext.
    rewrite Hnext. done.
Qed.
End claims.

(** * Concrete runs

    The claims at concrete inputs, on the reference instances of the
    interfaces. *)

Section runs.
#[local] Existing Instances refAEAD refMAC refKDF.
Import Byte.

(** C1 at the passphrase "hunter2" and the plaintext "this is a test". *)
Lemma encrypt_decrypt_roundtrip_witness :
  encryptFile samplePassphrase samplePlaintext sampleEntropy 4 = Some (Renamed sampleFile) ∧
  decryptFile samplePassphrase sampleFile = Some (Renamed samplePlaintext).
Proof.
  assert (Henc : encryptFile samplePassphrase samplePlaintext sampleEntropy 4
                 = Some (Renamed sampleFile)) by (vm_compute; reflexivity).
  split; [exact Henc|].
  exact (encrypt_decrypt_roundtrip _ _ _ _ _ Henc).
Defined.

(** C2 at the sample file with the first byte of its region replaced. *)
Lemma tampered_region_is_rejected_witness :
  encryptFile samplePassphrase samplePlaintext sampleEntropy 4 = Some (Renamed sampleFile) ∧
  drop headerSize sampleFile ≠ [] ∧
  (single_byte_mutation (drop headerSize sampleFile) sampleMutatedRegion ∨
   truncation (drop headerSize sampleFile) sampleMutatedRegion) ∧
  keysOf samplePassphrase (decodeHeader (take headerSize sampleFile))
    = Some (sampleSk, sampleMacKey) ∧
  blake2b512 sampleMacKey sampleMutatedRegion
    ≠ blake2b512 sampleMacKey (drop headerSize sampleFile) ∧
  decryptFile samplePassphrase (take headerSize sampleFile ++ sampleMutatedRegion)
    = Some (Failed errBadMAC []).
Proof.
  assert (Henc : encryptFile samplePassphrase samplePlaintext sampleEntropy 4
                 = Some (Renamed sampleFile)) by (vm_compute; reflexivity).
  assert (Hne : drop headerSize sampleFile ≠ []) by (vm_compute; discriminate).
  assert (Hmut : single_byte_mutation (drop headerSize sampleFile) sampleMutatedRegion ∨
                 truncation (drop headerSize sampleFile) sampleMutatedRegion).
  { left. exists 0, x20, xff. split_and!; [vm_compute; reflexivity|discriminate|reflexivity]. }
  assert (Hkeys : keysOf samplePassphrase (decodeHeader (take headerSize sampleFile))
                  = Some (sampleSk, sampleMacKey)) by (vm_compute; reflexivity).
  assert (Hmac : blake2b512 sampleMacKey sampleMutatedRegion
                 ≠ blake2b512 sampleMacKey (drop headerSize sampleFile))
    by (vm_compute; discriminate).
  do 5 (split; [assumption|]).
  exact (tampered_region_is_rejected _ _ _ _ _ _ _ _ Henc Hne Hmut Hkeys Hmac).
Defined.

(** C3 as stated fails: a header is 105 bytes, not 141. *)
Lemma header_is_not_141_bytes :
  header_wf sampleHeader ∧
  take 105 sampleFile = encodeHeader sampleHeader ∧
  length (encodeHeader sampleHeader) = 105 ∧
  length (encodeHeader sampleHeader) ≠ 141.
Proof.
  split_and!; [|vm_compute; reflexivity|vm_compute; reflexivity|vm_compute; discriminate].
  unfold header_wf. vm_compute. split_and!; done.
Qed.

(** C3 as amended, at the sample file. *)
Lemma header_layout_witness :
  encryptFile samplePassphrase samplePlaintext sampleEntropy 4 = Some (Renamed sampleFile) ∧
  ∃ h sk macKey cs,
    header_wf h ∧ keysOf samplePassphrase h = Some (sk, macKey) ∧
    length (encodeHeader h) = 105 ∧
    take 105 sampleFile = encodeHeader h ∧
    take 32 sampleFile = Salt h ∧
    take 4 (drop 32 sampleFile) = putUintLE 4 (ArgonTime h) ∧
    take 4 (drop 36 sampleFile) = putUintLE 4 (ArgonMemory h) ∧
    take 1 (drop 40 sampleFile) = putUintLE 1 (ArgonLanes h) ∧
    take 64 (drop 41 sampleFile) = Tag h ∧
    drop 105 sampleFile = frames sk cs ∧
    Tag h = blake2b512 macKey (drop 105 sampleFile).
Proof.
  assert (Henc : encryptFile samplePassphrase samplePlaintext sampleEntropy 4
                 = Some (Renamed sampleFile)) by (vm_compute; reflexivity).
  split; [exact Henc|].
  exact (header_layout _ _ _ _ _ Henc).
Defined.

(** C4 at the sample file. *)
Lemma nonces_are_unique_witness :
  encryptFile samplePassphrase samplePlaintext sampleEntropy 4 = Some (Renamed sampleFile) ∧
  ∃ fs, scanFrames (length sampleFile) (drop headerSize sampleFile) = Some fs ∧
        NoDup fs.*1.
Proof.
  assert (Henc : encryptFile samplePassphrase samplePlaintext sampleEntropy 4
                 = Some (Renamed sampleFile)) by (vm_compute; reflexivity).
  split; [exact Henc|].
  exact (proj2 (proj2 nonces_are_unique) _ _ _ _ _ Henc).
Defined.

(** C5 at 16385 zero bytes and the nonces 00..00 and 01..01. *)
Lemma write_chunking_witness :
  length (replicate (S maxChunkSize) x00) = S maxChunkSize ∧
  length (replicate nonceSize x00) = nonceSize ∧
  length (replicate nonceSize x01) = nonceSize ∧
  replicate nonceSize x00 ≠ replicate nonceSize x01 ∧
  ∃ w', EncWriter_Write
          (NewWriter sampleKey [] (replicate nonceSize x00 ++ replicate nonceSize x01 ++ []))
          (replicate (S maxChunkSize) x00)
          = Return (w', S maxChunkSize) None ∧
        EncWriter.out w' =
          [] ++ frames sampleKey
                  [(replicate nonceSize x00, take maxChunkSize (replicate (S maxChunkSize) x00));
                   (replicate nonceSize x01, drop maxChunkSize (replicate (S maxChunkSize) x00))] ∧
        length (take maxChunkSize (replicate (S maxChunkSize) x00)) = maxChunkSize ∧
        length (drop maxChunkSize (replicate (S maxChunkSize) x00)) = 1.
Proof.
  assert (Hp : length (replicate (S maxChunkSize) x00) = S maxChunkSize)
    by (vm_compute; reflexivity).
  assert (Hn1 : length (replicate nonceSize x00) = nonceSize) by reflexivity.
  assert (Hn2 : length (replicate nonceSize x01) = nonceSize) by reflexivity.
  assert (Hne : replicate nonceSize x00 ≠ replicate nonceSize x01)
    by (vm_compute; discriminate).
  do 4 (split; [assumption|]).
  exact (proj1 write_chunking sampleKey [] _ _ [] _ Hp Hn1 Hn2 Hne).
Defined.

(** C6 as stated fails: the file for the empty input is the header alone,
    its ciphertext region holds no frame. *)
Lemma empty_input_has_no_frame :
  encryptFile samplePassphrase [] sampleEntropy 4 = Some (Renamed sampleEmptyFile) ∧
  length sampleEmptyFile = 105 ∧
  drop headerSize sampleEmptyFile = [].
Proof. split_and!; vm_compute; reflexivity. Qed.

(** C6 as amended, at the sample passphrase and one nonce. *)
Lemma empty_input_writes_no_chunk_witness :
  (encryptFile samplePassphrase [] sampleEntropy 4 = Some (Renamed sampleEmptyFile) ∧
   length sampleEmptyFile = headerSize ∧ drop headerSize sampleEmptyFile = []) ∧
  (length (replicate nonceSize x00) = nonceSize ∧
   ∃ w', EncWriter_Write (NewWriter sampleKey [] (replicate nonceSize x00 ++ [])) []
           = Return (w', 0) None ∧
         EncWriter.out w' = [] ++ frame sampleKey (replicate nonceSize x00) [] ∧
         length (frame sampleKey (replicate nonceSize x00) []) = 48).
Proof.
  assert (Henc : encryptFile samplePassphrase [] sampleEntropy 4
                 = Some (Renamed sampleEmptyFile)) by (vm_compute; reflexivity).
  assert (Hn : length (replicate nonceSize x00) = nonceSize) by reflexivity.
  split.
  - split; [exact Henc|]. exact (proj1 empty_input_writes_no_chunk _ _ _ _ Henc).
  - split; [exact Hn|]. exact (proj2 empty_input_writes_no_chunk sampleKey [] _ [] Hn).
Defined.



(** C8 at 128 CPUs, the sample passphrase and the sample entropy: the
    conversion to uint8 gives 0 lanes, not the clamp 255, and argon2.IDKey
    panics on it. *)
Lemma lanes_at_128_cpus :
  defaultArgonLanes 128 = 0%Z ∧ clampedLanes 128 = 255%Z ∧
  generateKey samplePassphrase sampleEntropy 128
    = Panicked "argon2: parallelism degree too low".
Proof. split_and!; vm_compute; reflexivity. Qed.

(** The lanes of 4 CPUs. *)
Lemma default_lanes_up_to_127_cpus_witness :
  (1 ≤ 4 ≤ 127)%Z ∧
  defaultArgonLanes 4 = (2 * 4)%Z ∧
  defaultArgonLanes 4 = clampedLanes 4 ∧
  (2 ≤ defaultArgonLanes 4 ≤ 254)%Z ∧
  (∀ pw rand, saltSize ≤ length rand →
     ∃ skb h rand', generateKey pw rand 4 = Return (skb, h, rand') None ∧
                    ArgonLanes h = (2 * 4)%Z).
Proof.
  assert (Hcpu : (1 ≤ 4 ≤ 127)%Z) by lia.
  split; [exact Hcpu|].
  exact (default_lanes_up_to_127_cpus 4 Hcpu).
Defined.

(** C9 at an encryptor after one Write and a decryptor after one Read of
    what was written. *)
Lemma buffers_stay_bounded_witness :
  ∃ w b,
    (enc_reachable (NewWriter sampleKey [] sampleEntropy) w ∧
     length (EncWriter.buf w) ≤ maxChunkSize ∧
     length (EncWriter.buf w) ≤ 3 * maxChunkSize) ∧
    (dec_reachable (NewReader sampleKey {| content := EncWriter.out w; pos := 0 |}) b ∧
     length (DecReader.buf b) ≤ maxChunkSize ∧
     length (DecReader.buf b) ≤ 3 * maxChunkSize).
Proof.
  destruct (EncWriter_Write (NewWriter sampleKey [] sampleEntropy) samplePlaintext)
    as [[w n] err|] eqn:Hw; [|vm_compute in Hw; discriminate Hw].
  assert (Hew : enc_reachable (NewWriter sampleKey [] sampleEntropy) w)
    by (eapply enc_write; [apply enc_new|exact Hw]).
  destruct (DecReader_Read (NewReader sampleKey {| content := EncWriter.out w; pos := 0 |}) 5)
    as [[b data] err'|] eqn:Hr.
  - assert (Hdb : dec_reachable (NewReader sampleKey {| content := EncWriter.out w; pos := 0 |}) b)
      by (eapply dec_read; [apply dec_new|exact Hr]).
    exists w, b. split.
    + split; [exact Hew|]. exact (proj1 buffers_stay_bounded _ _ _ _ Hew).
    + split; [exact Hdb|]. exact (proj2 buffers_stay_bounded _ _ _ Hdb).
  - exists w, (NewReader sampleKey {| content := EncWriter.out w; pos := 0 |}). split.
    + split; [exact Hew|]. exact (proj1 buffers_stay_bounded _ _ _ _ Hew).
    + split; [apply dec_new|].
      exact (proj2 buffers_stay_bounded _ _ _ (dec_new _)).
Defined.

(** C10 on the reference instances: the frame a Write of nothing emits
    makes a Read of one byte panic. *)
Lemma Read_of_empty_chunk_panics_run :
  ∃ w, EncWriter_Write (NewWriter sampleKey [] sampleEntropy) [] = Return (w, 0) None ∧
       DecReader_Read (NewReader sampleKey {| content := EncWriter.out w; pos := 0 |}) 1
         = Panicked "index out of range".
Proof. eexists. split; vm_compute; reflexivity. Qed.
End runs.

(** * Lemmas for the further properties *)

(** ** Reads compose *)

Section reads_compose.
Context `{!AEAD}.

(** What the loop of Read stores does not depend on what was stored
    before. *)
Lemma readLoop_got n : ∀ b got,
  readLoop n b got =
    match readLoop n b [] with
    | Return (b', data) err => Return (b', got ++ data) err
    | Panicked m => Panicked m
    end.
Proof.
  induction n as [|n IH]; intros b got.
  { cbn [readLoop]. by rewrite app_nil_r. }
  cbn [readLoop].
  destruct (if decide (DecReader.index b = 0) then nextChunk b else (b, None))
    as [b1 [e|]].
  { by rewrite app_nil_r. }
  destruct (DecReader.buf b1 !! DecReader.index b1) as [x|]; [|done].
  rewrite IH. rewrite (IH _ ([] ++ [x])).
  destruct (readLoop n _ []) as [[b' data] err|]; [|done].
  by rewrite <- app_assoc.
Qed.

Lemma readLoop_add n : ∀ m b got,
  readLoop (n + m) b got =
    match readLoop n b got with
    | Return (b', got') None => readLoop m b' got'
    | r => r
    end.
Proof.
  induction n as [|n IH]; intros m b got; [done|].
  cbn [readLoop Nat.add].
  destruct (if decide (DecReader.index b = 0) then nextChunk b else (b, None))
    as [b1 [e|]]; [done|].
  destruct (DecReader.buf b1 !! DecReader.index b1) as [x|]; [|done].
  apply IH.
Qed.
End reads_compose.

(** ** Frames followed by other bytes *)

Section frames_then.
Context `{!AEAD}.

Lemma reads_frames_then_end sk b cs tail :
  reads_frames_then sk b cs tail → pending b ++ mjoin cs.*2 = [] →
  DecReader.index b = 0 ∧ remaining (DecReader.in_ b) = tail.
Proof.
  intros (_ & Hrem & _ & Hlen & Hidx) Hnil.
  apply app_eq_nil in Hnil as [Hpend Hcs].
  assert (Hi : DecReader.index b = 0).
  { unfold pending in Hpend. destruct (decide _) as [|Hne]; [done|].
    destruct Hidx as [|Hlt]; [done|].
    apply (f_equal length) in Hpend. rewrite length_drop in Hpend. simpl in Hpend. lia. }
  split; [done|]. rewrite Hrem.
  destruct cs as [|[n p] cs]; [done|].
  rewrite fmap_cons in Hcs, Hlen.
  simpl in Hcs. apply app_eq_nil in Hcs as [-> _].
  apply Forall_cons in Hlen as [Hlen _]. simpl in Hlen. lia.
Qed.

Lemma readLoop_step_then sk b cs tail x s :
  reads_frames_then sk b cs tail → pending b ++ mjoin cs.*2 = x :: s →
  ∃ b' cs',
    (∀ n got, readLoop (S n) b got = readLoop n b' (got ++ [x])) ∧
    reads_frames_then sk b' cs' tail ∧ pending b' ++ mjoin cs'.*2 = s ∧
    content (DecReader.in_ b') = content (DecReader.in_ b).
Proof.
  intros (Hsk & Hrem & Hnonces & Hlens & Hidx) Hstream.
  destruct (decide (DecReader.index b = 0)) as [Hzero|Hnz].
  - unfold pending in Hstream. rewrite decide_True in Hstream by done.
    simpl in Hstream.
    destruct cs as [|[nc p] cs]; [done|].
    rewrite fmap_cons in Hnonces, Hlens, Hstream.
    apply Forall_cons in Hnonces as [Hnc Hnonces].
    apply Forall_cons in Hlens as [Hp Hlens]. simpl in Hnc, Hp.
    rewrite frames_cons, <- Hsk, <- app_assoc in Hrem.
    destruct (nextChunk_frame b nc p _ Hrem Hnc (proj2 Hp)) as (f' & Hnext & Hrem' & Hc).
    destruct p as [|y p]; [simpl in Hp; lia|].
    simpl in Hstream. injection Hstream as -> <-.
    eexists (DecReader.mk f' (x :: p) (if decide (length (x :: p) ≤ 1) then 0 else 1)
               (DecReader.secretKey b)), cs.
    split; [|split; [|split]].
    + intros n got. cbn [readLoop]. rewrite decide_True by done.
      rewrite Hnext, Hzero. done.
    + unfold reads_frames_then. cbn. rewrite Hsk in *. split_and!; try done.
      destruct (decide _); [by left|right; simpl in *; lia].
    + unfold pending. cbn. f_equal.
      destruct (decide (S (length p) ≤ 1)) as [Hone|Hmore].
      * rewrite decide_True by done. destruct p; [done|simpl in Hone; lia].
      * rewrite decide_False by done. done.
    + done.
  - destruct Hidx as [|Hlt]; [done|].
    unfold pending in Hstream. rewrite decide_False in Hstream by done.
    destruct (lookup_lt_is_Some_2 _ _ Hlt) as [y Hy].
    rewrite (drop_S _ _ _ Hy) in Hstream. simpl in Hstream.
    injection Hstream as -> Hs.
    set (i := S (DecReader.index b)) in *.
    eexists (DecReader.mk (DecReader.in_ b) (DecReader.buf b)
               (if decide (length (DecReader.buf b) ≤ i) then 0 else i)
               (DecReader.secretKey b)), cs.
    split; [|split; [|split]].
    + intros n got. cbn [readLoop]. rewrite decide_False by done.
      cbv beta iota. rewrite Hy. done.
    + unfold reads_frames_then. cbn. split_and!; try done.
      destruct (decide _); [by left|right; lia].
    + rewrite <- Hs. f_equal. unfold pending. cbn.
      destruct (decide (length (DecReader.buf b) ≤ i)) as [Hend|Hmid].
      * rewrite decide_True by done. by rewrite drop_ge.
      * rewrite decide_False by (unfold i; lia). done.
    + done.
Qed.

(** A Read within the plaintext of the frames is served in full, whatever
    follows the frames. *)
Lemma readLoop_frames_then sk tail n : ∀ b cs got s,
  reads_frames_then sk b cs tail → pending b ++ mjoin cs.*2 = s →
  n ≤ length s →
  ∃ b' cs',
    readLoop n b got = Return (b', got ++ take n s) None ∧
    reads_frames_then sk b' cs' tail ∧ pending b' ++ mjoin cs'.*2 = drop n s ∧
    content (DecReader.in_ b') = content (DecReader.in_ b).
Proof.
  induction n as [|n IH]; intros b cs got s Hinv Hs Hn.
  - exists b, cs. cbn [readLoop]. by rewrite take_0, app_nil_r, drop_0.
  - destruct s as [|x s']; [simpl in Hn; lia|].
    destruct (readLoop_step_then sk b cs tail x s' Hinv Hs)
      as (b1 & cs1 & Hstep & Hinv1 & Hs1 & Hc1).
    destruct (IH b1 cs1 (got ++ [x]) s' Hinv1 Hs1) as (b' & cs' & Hread & Hinv' & Hs' & Hc');
      [simpl in Hn; lia|].
    exists b', cs'. rewrite Hstep, Hread.
    split; [|split; [done|split; [done|congruence]]].
    simpl. by rewrite <- app_assoc.
Qed.

(** A Read beyond the plaintext of the frames serves all of it and then
    returns whatever [nextChunk] makes of the bytes that follow. *)
Lemma readLoop_frames_then_error sk tail e n b cs got s :
  reads_frames_then sk b cs tail → pending b ++ mjoin cs.*2 = s →
  length s < n →
  (∀ b1, DecReader.secretKey b1 = sk → remaining (DecReader.in_ b1) = tail →
     ∃ b2, nextChunk b1 = (b2, Some e)) →
  ∃ b', readLoop n b got = Return (b', got ++ s) (Some e).
Proof.
  intros Hinv Hs Hn Htail.
  destruct (readLoop_frames_then sk tail (length s) b cs got s Hinv Hs)
    as (b1 & cs1 & Hread & Hinv1 & Hs1 & _); [done|].
  rewrite drop_all in Hs1. rewrite firstn_all in Hread.
  destruct (reads_frames_then_end _ _ _ _ Hinv1 Hs1) as [Hi Hrem].
  destruct (Htail b1 (proj1 Hinv1) Hrem) as (b2 & Hnext).
  replace n with (length s + S (n - length s - 1)) by lia.
  rewrite readLoop_add, Hread. cbn [readLoop].
  rewrite decide_True by done. rewrite Hnext. by exists b2.
Qed.

(** Copying frames followed by bytes on which [nextChunk] fails: all the
    plaintext of the frames is written, then the copy stops, without an
    error when the failure is io.EOF. *)
Lemma ioCopy_decrypt_then sk tail e fuel : ∀ b cs (dst : bytes) written s,
  reads_frames_then sk b cs tail → pending b ++ mjoin cs.*2 = s →
  length s < fuel →
  (∀ b1, DecReader.secretKey b1 = sk → remaining (DecReader.in_ b1) = tail →
     ∃ b2, nextChunk b1 = (b2, Some e)) →
  ∃ b', ioCopy fuel dst b written =
          Some (Return (dst ++ s, b', written + length s)
                  (if decide (e = EOF) then None else Some e)).
Proof.
  induction fuel as [|fuel IH]; intros b cs dst written s Hinv Hs Hfuel Htail; [lia|].
  cbn [ioCopy]. change (Read b copyBufSize) with (readLoop copyBufSize b []).
  pose proof copyBufSize_pos as Hpos.
  destruct (decide (length s < copyBufSize)) as [Hshort|Hlong].
  - destruct (readLoop_frames_then_error sk tail e copyBufSize b cs [] s Hinv Hs Hshort Htail)
      as (b1 & ->).
    rewrite app_nil_l.
    destruct (decide (0 < length s)) as [Hne|He].
    + change (Write dst s) with (Return (dst ++ s, length s) None). cbv beta iota.
      rewrite decide_False by lia. rewrite decide_True by done.
      exists b1. by destruct e.
    + destruct s; [|simpl in He; lia]. simpl.
      rewrite app_nil_r, Nat.add_0_r. exists b1. by destruct e.
  - destruct (readLoop_frames_then sk tail copyBufSize b cs [] s Hinv Hs)
      as (b1 & cs1 & -> & Hinv1 & Hs1 & _); [lia|].
    rewrite app_nil_l.
    assert (Hlen : length (take copyBufSize s) = copyBufSize)
      by (rewrite length_take; lia).
    rewrite decide_True by lia.
    change (Write dst (take copyBufSize s))
      with (Return (dst ++ take copyBufSize s, length (take copyBufSize s)) None).
    cbv beta iota.
    rewrite decide_False by lia. rewrite decide_True by done.
    assert (Hfuel' : length (drop copyBufSize s) < fuel)
      by (rewrite length_drop; lia).
    destruct (IH b1 cs1 (dst ++ take copyBufSize s)
                (written + length (take copyBufSize s)) _ Hinv1 Hs1 Hfuel' Htail) as (b' & ->).
    exists b'. rewrite <- app_assoc, take_drop, length_drop, Hlen.
    replace (written + copyBufSize + (length s - copyBufSize))
      with (written + length s) by lia.
    done.
Qed.
End frames_then.

(** ** What [nextChunk] makes of a source that does not start with a frame *)

Lemma readFull_short f n :
  0 < length (remaining f) < n →
  ∃ f', readFull f n = (f', remaining f, Some ErrUnexpectedEOF).
Proof.
  intros Hlen. unfold readFull.
  rewrite decide_False by lia.
  rewrite take_ge by lia.
  rewrite decide_False by lia. rewrite decide_True by lia. by eexists.
Qed.

Lemma readFull_remaining f n f' d err :
  readFull f n = (f', d, err) →
  length (remaining f') ≤ length (remaining f) ∧
  (err = None → length (remaining f') + n = length (remaining f)).
Proof.
  unfold readFull, remaining, seekTo. intros Hr.
  destruct (decide (n = 0)) as [->|Hn]; [injection Hr as <- <- <-; lia|].
  destruct (decide _) as [Hz|Hz]; [by injection Hr as <- <- <-|].
  rewrite length_take, length_drop in Hz.
  destruct (decide _) as [Hlt|Hge]; injection Hr as <- <- <-; cbn [content pos];
    rewrite !length_drop; [split; [lia|done]|].
  rewrite length_take, length_drop in Hge. lia.
Qed.

Section not_a_frame.
Context `{!AEAD}.

(** The source ends inside a nonce. *)
Lemma nextChunk_cut_in_nonce b :
  0 < length (remaining (DecReader.in_ b)) < nonceSize →
  ∃ b', nextChunk b = (b', Some ErrUnexpectedEOF).
Proof.
  intros Hlen. unfold nextChunk.
  destruct (readFull_short _ _ Hlen) as (f' & ->). by eexists.
Qed.

(** The source ends right after a nonce. *)
Lemma nextChunk_cut_after_nonce b :
  length (remaining (DecReader.in_ b)) = nonceSize →
  ∃ b', nextChunk b = (b', Some EOF).
Proof.
  intros Hlen. unfold nextChunk.
  destruct (readFull_enough (DecReader.in_ b) nonceSize (remaining (DecReader.in_ b)) [])
    as [-> Hrem]; [by rewrite app_nil_r|done|].
  rewrite readFull_at_end by (done || lia). by eexists.
Qed.

(** The source ends right after the length of a chunk that is not empty. *)
Lemma nextChunk_cut_after_length b nonce sizeBytes :
  remaining (DecReader.in_ b) = nonce ++ sizeBytes →
  length nonce = nonceSize → length sizeBytes = 8 →
  (0 < getUintLE sizeBytes ≤ Z.of_nat (maxChunkSize + 16))%Z →
  ∃ b', nextChunk b = (b', Some EOF).
Proof.
  intros Hrem Hn Hs Hsize. unfold nextChunk.
  destruct (readFull_enough _ _ _ _ Hrem Hn) as [-> Hrem1].
  destruct (readFull_enough (seekTo (DecReader.in_ b) (pos (DecReader.in_ b) + nonceSize))
              8 sizeBytes [])
    as [-> Hrem2]; [by rewrite app_nil_r|done|].
  rewrite decide_False by lia.
  rewrite readFull_at_end by (done || lia). by eexists.
Qed.

(** The length field is above [maxChunkSize + 16]: the chunk is refused
    after the 32 bytes of nonce and length, whatever follows. *)
Lemma nextChunk_oversize b nonce sizeBytes rest :
  remaining (DecReader.in_ b) = nonce ++ sizeBytes ++ rest →
  length nonce = nonceSize → length sizeBytes = 8 →
  (Z.of_nat (maxChunkSize + 16) < getUintLE sizeBytes)%Z →
  ∃ f', nextChunk b =
          (DecReader.mk f' (DecReader.buf b) (DecReader.index b) (DecReader.secretKey b),
           Some errChunkTooLarge) ∧
        remaining f' = rest.
Proof.
  intros Hrem Hn Hs Hsize. unfold nextChunk.
  destruct (readFull_enough _ _ _ _ Hrem Hn) as [-> Hrem1].
  destruct (readFull_enough _ _ _ _ Hrem1 Hs) as [-> Hrem2].
  rewrite decide_True by done. by eexists.
Qed.

(** The frame does not authenticate under the reader's key. *)
Lemma nextChunk_bad_frame b nonce ct rest :
  remaining (DecReader.in_ b) =
    nonce ++ putUintLE 8 (Z.of_nat (length ct)) ++ ct ++ rest →
  length nonce = nonceSize → length ct ≤ maxChunkSize + 16 →
  open (DecReader.secretKey b) nonce ct = None →
  ∃ b', nextChunk b = (b', Some errOpen).
Proof.
  intros Hrem Hn Hct Hopen. unfold nextChunk.
  destruct (readFull_enough _ _ _ _ Hrem Hn) as [-> Hrem1].
  destruct (readFull_enough _ _ _ _ Hrem1 (length_putUintLE _ _)) as [-> Hrem2].
  rewrite getUintLE_putUintLE_small
    by (change (256 ^ Z.of_nat 8)%Z with (2 ^ 64)%Z; sizes).
  rewrite decide_False by lia. rewrite Nat2Z.id.
  destruct (readFull_enough _ _ _ _ Hrem2 eq_refl) as [-> Hrem3].
  rewrite Hopen. by eexists.
Qed.

(** ** Reads make progress *)

Lemma nextChunk_remaining b b' err :
  nextChunk b = (b', err) →
  length (remaining (DecReader.in_ b')) ≤ length (remaining (DecReader.in_ b)) ∧
  (err = None →
   length (remaining (DecReader.in_ b')) < length (remaining (DecReader.in_ b))).
Proof.
  unfold nextChunk. intros Hn.
  destruct (readFull (DecReader.in_ b) nonceSize) as [[f1 nonce] e1] eqn:Hr1.
  apply readFull_remaining in Hr1 as [Hle1 Heq1].
  destruct e1 as [e1|]; [by injection Hn as <- <-|].
  specialize (Heq1 eq_refl).
  destruct (readFull f1 8) as [[f2 sz] e2] eqn:Hr2.
  apply readFull_remaining in Hr2 as [Hle2 _].
  destruct e2 as [e2|]; [injection Hn as <- <-; cbn; split; [lia|done]|].
  destruct (decide _); [injection Hn as <- <-; cbn; split; [lia|done]|].
  destruct (readFull f2 _) as [[f3 cd] e3] eqn:Hr3.
  apply readFull_remaining in Hr3 as [Hle3 _].
  destruct e3 as [e3|]; [injection Hn as <- <-; cbn; split; [lia|done]|].
  unfold nonceSize in *.
  destruct (open _ _ _); injection Hn as <- <-; cbn; split; try done; lia.
Qed.

Lemma readLoop_progress n : ∀ b got b' got',
  readLoop n b got = Return (b', got') None →
  length (remaining (DecReader.in_ b')) ≤ length (remaining (DecReader.in_ b)) ∧
  (unserved b < n →
   length (remaining (DecReader.in_ b')) < length (remaining (DecReader.in_ b))).
Proof.
  induction n as [|n IH]; intros b got b' got' Hread.
  { injection Hread as <- <-. split; [done|lia]. }
  cbn [readLoop] in Hread.
  destruct (decide (DecReader.index b = 0)) as [Hz|Hnz].
  - destruct (nextChunk b) as [b1 [e1|]] eqn:Hnext; [done|].
    apply nextChunk_remaining in Hnext as [_ Hlt]. specialize (Hlt eq_refl).
    destruct (DecReader.buf b1 !! DecReader.index b1); [|done].
    apply IH in Hread as [Hle _]. cbn in Hle. split; [lia|]. intros _. lia.
  - destruct (DecReader.buf b !! DecReader.index b) as [x|] eqn:Hx; [|done].
    apply lookup_lt_Some in Hx.
    apply IH in Hread as [Hle Hlt]. cbn [DecReader.in_] in Hle, Hlt.
    split; [done|]. intros Hn. apply Hlt.
    unfold unserved in *. cbn [DecReader.index DecReader.buf].
    rewrite decide_False in Hn by done.
    destruct (decide (length (DecReader.buf b) ≤ S (DecReader.index b))).
    + rewrite decide_True by done. lia.
    + rewrite decide_False by done. lia.
Qed.

(** A copy from a decryptor makes at most one Read per remaining byte of
    its source, and one more. *)
Lemma ioCopy_decrypt_fuel fuel : ∀ b (dst : bytes) written,
  length (DecReader.buf b) ≤ maxChunkSize →
  length (remaining (DecReader.in_ b)) < fuel →
  ioCopy fuel dst b written ≠ None.
Proof.
  induction fuel as [|fuel IH]; intros b dst written Hbuf Hfuel; [lia|].
  cbn [ioCopy]. change (Read b copyBufSize) with (readLoop copyBufSize b []).
  destruct (readLoop copyBufSize b []) as [[b1 data] er|] eqn:Hread; [|done].
  pose proof (readLoop_buf_bound _ _ _ _ _ _ Hbuf Hread) as Hbuf1.
  assert (Hnext : er = None → length (remaining (DecReader.in_ b1)) < fuel).
  { intros ->. apply readLoop_progress in Hread as [_ Hlt].
    assert (unserved b < copyBufSize); [|lia].
    unfold unserved. destruct (decide _); sizes. }
  destruct (decide (0 < length data)).
  - change (Write dst data) with (Return (dst ++ data, length data) None). cbv beta iota.
    rewrite decide_False by lia. rewrite decide_True by done.
    destruct er as [[]|]; try done. by apply IH; [|apply Hnext].
  - destruct er as [[]|]; try done. by apply IH; [|apply Hnext].
Qed.
End not_a_frame.

(** ** The shape of what the encryptor emits *)

Section shape.
Context `{!AEAD}.

Lemma length_frames sk cs :
  Forall (λ n, length n = nonceSize) cs.*1 →
  length (frames sk cs) = length (mjoin cs.*2) + 48 * length cs.
Proof.
  induction cs as [|[n p] cs IH]; intros Hn; [done|].
  rewrite fmap_cons in Hn. apply Forall_cons in Hn as [Hn Hns].
  rewrite frames_cons, !fmap_cons. cbn [fst snd] in *.
  change (mjoin (p :: cs.*2)) with (p ++ mjoin cs.*2).
  rewrite !length_app, length_frame, Hn, IH by done.
  unfold nonceSize, overhead. simpl. lia.
Qed.


(** A Write of at least one byte on an empty buffer: full chunks, then one
    last chunk with what is left, between 1 and [maxChunkSize] bytes. *)
Lemma Write_shape w p w' n err :
  EncWriter.buf w = [] → p ≠ [] →
  EncWriter_Write w p = Return (w', n) err →
  ∃ cs nonce last,
    emitted w w' (cs ++ [(nonce, last)]) ∧
    Forall (λ c, length c = maxChunkSize) cs.*2 ∧
    1 ≤ length last ≤ maxChunkSize ∧
    mjoin cs.*2 ++ last = p.
Proof.
  intros Hnil Hp. unfold EncWriter_Write. intros Hw.
  destruct (writeLoop w p 0) as [[w1 i] e1|] eqn:Hloop; [|done].
  apply writeLoop_Return in Hloop as (-> & -> & Hle & Hne & cs & Hem & Hcat & Hall);
    [|rewrite Hnil; simpl; lia].
  destruct (writeChunk w1) as [w2 e2|] eqn:Hchunk; [|done].
  injection Hw as <- <- <-.
  apply writeChunk_Return in Hchunk as (-> & _ & nonce & Hem2).
  rewrite Hnil in Hne, Hcat. simpl in Hne, Hcat. specialize (Hne Hp).
  exists cs, nonce, (EncWriter.buf w1).
  split; [by eapply emitted_trans|]. split; [done|]. split; [|done].
  destruct (EncWriter.buf w1); [done|]. simpl in *. lia.
Qed.

End shape.

(** ** More about the file operations *)

Lemma getUintLE_nonneg bs : (0 ≤ getUintLE bs)%Z.
Proof.
  induction bs as [|b bs IH]; simpl; [lia|].
  pose proof (zOfByte_range b). lia.
Qed.

Section more_files.
Context `{!AEAD, !MAC, !KDF}.


(** Decryption of a file that holds at least a header, up to the
    comparison of the tag. *)
Lemma decryptFile_long pw input :
  headerSize ≤ length input →
  let h := decodeHeader (take headerSize input) in
  decryptFile pw input =
    match IDKey pw (Salt h) (ArgonTime h) (ArgonMemory h) (ArgonLanes h) (keyLen + macLen) with
    | Panicked m => Some (Crashed m)
    | Return skb _ =>
      let sk := copyArray 32 (take 32 skb) in
      let macKey := copyArray 32 (drop 32 skb) in
      if decide (copyArray 64 (blake2b512 macKey (drop headerSize input)) = Tag h) then
        match ioCopy (S (length input)) ([] : bytes)
                (NewReader sk {| content := input; pos := headerSize |}) 0 with
        | None => None
        | Some (Panicked m) => Some (Crashed m)
        | Some (Return (output, _, _) (Some e)) => Some (Failed e output)
        | Some (Return (output, _, _) None) => Some (Renamed output)
        end
      else Some (Failed errBadMAC [])
    end.
Proof.
  intros Hlen h. unfold decryptFile.
  set (f0 := {| content := input; pos := 0 |}).
  destruct (readFull_enough f0 headerSize (take headerSize input) (drop headerSize input))
    as [-> Hrem]; [by rewrite take_drop|rewrite length_take; lia|].
  cbn [pos f0 Nat.add] in *. fold h.
  destruct (IDKey _ _ _ _ _ _) as [skb e|]; [|done].
  destruct (ioCopy_file_buffer (S (length input)) [] (seekTo f0 headerSize) 0) as (f2 & -> & Hc).
  { rewrite Hrem, length_drop. lia. }
  rewrite Hrem, app_nil_l. cbv zeta.
  destruct (decide _); [|done].
  unfold seekTo at 1. rewrite Hc. done.
Qed.

Lemma decryptFile_short pw input :
  length input < headerSize →
  decryptFile pw input =
    Some (Failed (if decide (input = []) then EOF else ErrUnexpectedEOF) []).
Proof.
  intros Hlen. unfold decryptFile, readFull.
  change (remaining {| content := input; pos := 0 |}) with input.
  rewrite decide_False by done.
  rewrite take_ge by lia.
  destruct input as [|x input]; [done|].
  rewrite decide_False by (simpl; lia). rewrite decide_True by done. done.
Qed.
End more_files.

(** ** An encryptor without entropy *)

Section encryptor_panics.
Context `{!AEAD}.

(** Without 24 bytes left on the entropy tape a Write of at least one
    byte panics. *)
Lemma Write_no_entropy w p :
  EncWriter.buf w = [] → p ≠ [] → length (EncWriter.rand w) < nonceSize →
  EncWriter_Write w p = Panicked "could not read entropy for encryption".
Proof.
  intros Hnil Hp Hrand.
  assert (Hchunk : ∀ o b u k, writeChunk (EncWriter.mk o b u k (EncWriter.rand w))
            = Panicked "could not read entropy for encryption").
  { intros. unfold writeChunk. cbn [EncWriter.rand]. by rewrite decide_True. }
  unfold EncWriter_Write.
  destruct (decide (length p ≤ maxChunkSize)) as [Hle|Hgt].
  - rewrite writeLoop_fill by (rewrite Hnil; simpl; lia). by rewrite Hchunk.
  - rewrite <- (take_drop maxChunkSize p).
    destruct (drop maxChunkSize p) as [|x rest] eqn:Hdrop.
    { apply (f_equal length) in Hdrop. rewrite length_drop in Hdrop. simpl in Hdrop. lia. }
    rewrite writeLoop_app.
    rewrite writeLoop_fill by (rewrite Hnil, length_take; simpl; lia).
    cbn [writeLoop EncWriter.buf]. rewrite Hnil, app_nil_l.
    rewrite decide_True by (rewrite length_take; lia).
    by rewrite Hchunk.
Qed.
End encryptor_panics.

(** ** More about the header and the decryptor *)

Lemma putUintLE_getUintLE n bs :
  length bs = n → putUintLE n (getUintLE bs) = bs.
Proof.
  intros <-. induction bs as [|b bs IH]; [done|].
  cbn [length putUintLE getUintLE].
  pose proof (zOfByte_range b) as Hb.
  assert (Hmod : ((zOfByte b + 256 * getUintLE bs) mod 256 = zOfByte b)%Z).
  { rewrite Z.mul_comm, Z.mod_add by lia. apply Z.mod_small. lia. }
  assert (Hdiv : ((zOfByte b + 256 * getUintLE bs) / 256 = getUintLE bs)%Z).
  { rewrite Z.mul_comm, Z.div_add by lia.
    rewrite Z.div_small by lia. lia. }
  rewrite Hdiv, IH. f_equal.
  unfold byteOfZ. rewrite Hmod.
  rewrite <- (byteOfZ_zOfByte b) at 2. unfold byteOfZ.
  by rewrite Z.mod_small by lia.
Qed.

Lemma getUintLE_bound bs : (0 ≤ getUintLE bs < 256 ^ Z.of_nat (length bs))%Z.
Proof.
  induction bs as [|b bs IH]; [simpl; lia|].
  cbn [length getUintLE]. pose proof (zOfByte_range b).
  rewrite Nat2Z.inj_succ, Z.pow_succ_r by lia. lia.
Qed.

Lemma readLoop_length `{!AEAD} n : ∀ b got b' got' err,
  readLoop n b got = Return (b', got') err →
  ∃ data, got' = got ++ data ∧ length data ≤ n ∧ (err = None → length data = n).
Proof.
  induction n as [|n IH]; intros b got b' got' err Hread.
  { injection Hread as <- <- <-. exists []. by rewrite app_nil_r. }
  cbn [readLoop] in Hread.
  destruct (if decide (DecReader.index b = 0) then nextChunk b else (b, None))
    as [b1 [e1|]].
  { injection Hread as <- <- <-. exists []. rewrite app_nil_r. split; [done|]. simpl. split; [lia|done]. }
  destruct (DecReader.buf b1 !! DecReader.index b1) as [x|]; [|done].
  apply IH in Hread as (data & -> & Hle & Heq).
  exists (x :: data). rewrite <- app_assoc. simpl. split; [done|]. split; [lia|].
  intros He. by rewrite Heq.
Qed.

(** ** The test helper [nonceReuse] *)

Lemma fileRead_enough f n d rest :
  remaining f = d ++ rest → length d = n → 0 < n →
  fileRead f n = Return (seekTo f (pos f + n), d) None ∧
  remaining (seekTo f (pos f + n)) = rest.
Proof.
  intros Hrem Hlen Hn. unfold fileRead.
  assert (Hd : take n (remaining f) = d).
  { rewrite Hrem, <- Hlen. apply take_app_length. }
  rewrite Hd, Hlen. rewrite decide_False by lia.
  rewrite decide_False by (intros ->; simpl in Hlen; lia).
  split; [done|].
  unfold remaining, seekTo in *. simpl.
  rewrite <- drop_drop, Hrem, <- Hlen. apply drop_app_length.
Qed.

Lemma fileRead_remaining f n f' d err :
  fileRead f n = Return (f', d) err →
  length (remaining f') ≤ length (remaining f) ∧
  (0 < n → err = None → length (remaining f') < length (remaining f)).
Proof.
  unfold fileRead. intros Hr.
  destruct (decide (n = 0)) as [->|Hn]; [injection Hr as <- <- <-; lia|].
  destruct (decide _) as [Hnil|Hd]; [by injection Hr as <- <- <-|].
  injection Hr as <- <- <-.
  assert (0 < length (take n (remaining f)))
    by (destruct (take n (remaining f)); [done|simpl; lia]).
  unfold remaining, seekTo in *. cbn [content pos]. rewrite !length_drop.
  rewrite length_take, length_drop in *. lia.
Qed.

Section nonce_reuse.
Context `{!AEAD, !HASH}.

(** The rounds of [nonceReuse] over well-formed frames: the answer says
    whether a sum was met before. *)
Lemma nonceReuseLoop_frames sk makeLimit cs : ∀ fuel buf seen,
  remaining buf = frames sk cs →
  Forall (λ n, length n = nonceSize) cs.*1 →
  Forall (λ c, length c ≤ maxChunkSize) cs.*2 →
  (Z.of_nat (maxChunkSize + overhead) ≤ makeLimit)%Z →
  length cs < fuel →
  nonceReuseLoop makeLimit fuel buf seen =
    Some (Answer (bool_decide
      (¬ (NoDup (Sum256 <$> cs.*1) ∧ Forall (λ s, s ∉ seen) (Sum256 <$> cs.*1))))).
Proof.
  induction cs as [|[n p] cs IH]; intros fuel buf seen Hrem Hnl Hcl Hlim Hfuel.
  - destruct fuel as [|fuel]; [simpl in Hfuel; lia|]. cbn [nonceReuseLoop].
    unfold fileRead. rewrite Hrem. cbn [frames fmap list_fmap mjoin list_join take].
    rewrite decide_False by done. rewrite decide_True by done.
    rewrite bool_decide_eq_false_2; [done|].
    intros Hn. apply Hn. split; constructor.
  - destruct fuel as [|fuel]; [simpl in Hfuel; lia|]. cbn [nonceReuseLoop].
    rewrite !fmap_cons in *. cbn [fst snd] in *.
    apply Forall_cons in Hnl as [Hn Hnl]. apply Forall_cons in Hcl as [Hp Hcl].
    rewrite frames_cons in Hrem. unfold frame in Hrem. cbv zeta in Hrem.
    rewrite <- !app_assoc in Hrem.
    destruct (fileRead_enough buf nonceSize _ _ Hrem Hn) as [-> Hrem1]; [unfold nonceSize; lia|].
    rewrite (copyArray_id nonceSize n) by done.
    destruct (decide (Sum256 n ∈ seen)) as [Hin|Hnotin].
    { rewrite bool_decide_eq_true_2; [done|].
      intros [_ Hfresh]. by apply Forall_cons in Hfresh as [Hfresh _]. }
    destruct (readFull_enough _ 8 _ _ Hrem1 (length_putUintLE _ _)) as [-> Hrem2].
    pose proof (seal_length sk n p) as Hseal.
    rewrite getUintLE_putUintLE_small
      by (change (256 ^ Z.of_nat 8)%Z with (2 ^ 64)%Z; sizes).
    rewrite decide_False by (unfold overhead in *; lia).
    rewrite Nat2Z.id.
    destruct (fileRead_enough _ (length (seal sk n p)) _ _ Hrem2 eq_refl) as [-> Hrem3];
      [unfold overhead in *; lia|].
    rewrite (IH fuel _ ({[Sum256 n]} ∪ seen) Hrem3 Hnl Hcl Hlim) by (simpl in Hfuel; lia).
    do 2 f_equal. apply bool_decide_ext.
    rewrite NoDup_cons, Forall_cons, !Forall_forall.
    split; intros Hneg Hall; apply Hneg; destruct Hall as [Hnd Hfresh].
    + destruct Hnd as [Hhd Hnd]. destruct Hfresh as [_ Hfresh]. split; [done|].
      intros s Hs. apply not_elem_of_union. split; [|by apply Hfresh].
      intros ->%elem_of_singleton. done.
    + split; [split; [|done]|split; [done|]].
      * intros Hhd. apply (Hfresh _ Hhd). apply elem_of_union_l. by apply elem_of_singleton.
      * intros s Hs Hin. apply (Hfresh s Hs). by apply elem_of_union_r.
Qed.

(** Every round that goes on has taken at least one byte. *)
Lemma nonceReuseLoop_fuel makeLimit fuel : ∀ buf seen,
  length (remaining buf) < fuel →
  nonceReuseLoop makeLimit fuel buf seen ≠ None.
Proof.
  induction fuel as [|fuel IH]; intros buf seen Hfuel; [lia|].
  cbn [nonceReuseLoop].
  destruct (fileRead buf nonceSize) as [[buf1 d] [e|]|] eqn:Hr1; [by destruct e| |done].
  apply fileRead_remaining in Hr1 as [_ Hlt].
  assert (Hlt1 : length (remaining buf1) < length (remaining buf))
    by (apply Hlt; [unfold nonceSize; lia|done]).
  destruct (decide _); [done|].
  destruct (readFull buf1 8) as [[buf2 sizeBytes] [e|]] eqn:Hr2; [done|].
  apply readFull_remaining in Hr2 as [Hle2 _].
  destruct (decide _); [done|].
  destruct (fileRead buf2 _) as [[buf3 d3] [e|]|] eqn:Hr3; [done| |done].
  apply fileRead_remaining in Hr3 as [Hle3 _].
  apply IH. lia.
Qed.
End nonce_reuse.

(** * Further properties of the code *)

(** ** The encryptor, the decryptor and the header *)

Section stream_properties.
Context `{!AEAD, !MAC, !KDF}.

(** X1. Header round trip: a header with field values that fit their Go
    types is written as exactly [headerSize] = 105 bytes, and reading
    those bytes back, whatever follows them, gives the same header. *)
Theorem header_roundtrip h rest :
  header_wf h →
  length (encodeHeader h) = headerSize ∧
  decodeHeader (encodeHeader h ++ rest) = h.
Proof.
  intros Hwf. split; [by apply length_encodeHeader_wf|by apply decodeHeader_encodeHeader].
Qed.

(** X2. Reads compose: a Read of [n + m] bytes does what a Read of [n]
    bytes followed, when that returned no error, by a Read of [m] bytes
    does, and delivers the bytes of the first followed by the bytes of the
    second. This holds on any source, well-formed or not. *)
Theorem Read_in_two_parts b n m :
  DecReader_Read b (n + m) =
    match DecReader_Read b n with
    | Return (b', d1) None =>
      match DecReader_Read b' m with
      | Return (b'', d2) err => Return (b'', d1 ++ d2) err
      | Panicked msg => Panicked msg
      end
    | r => r
    end.
Proof.
  unfold DecReader_Read. rewrite readLoop_add.
  destruct (readLoop n b []) as [[b' d1] [e|]|]; [done| |done].
  apply readLoop_got.
Qed.

(** X3. Stream round trip: after any sequence of Write calls of at least
    one byte each on a new encryptor, a new decryptor with the same key on
    the bytes written serves, for a Read of [n] bytes, the first [n] bytes
    of the plaintext submitted, with no error as long as [n] does not
    exceed its length and with io.EOF beyond. *)
Theorem write_then_read_roundtrip sk rand ps w' err n :
  Forall (λ p, p ≠ []) ps →
  writeAll (NewWriter sk [] rand) ps = Return w' err →
  ∃ b', DecReader_Read (NewReader sk {| content := EncWriter.out w'; pos := 0 |}) n
          = Return (b', take n (mjoin ps))
              (if decide (length (mjoin ps) < n) then Some EOF else None).
Proof.
  intros Hps Hall.
  apply writeAll_Return in Hall as (_ & _ & cs & Hem & Hcat & Hle & Hne); [|done].
  destruct Hem as (Hout & _ & _ & Hnl & _). specialize (Hne Hps).
  cbn [NewWriter EncWriter.out EncWriter.secretKey app] in Hout.
  set (b := NewReader sk _).
  assert (Hinv : reads_frames sk b cs).
  { unfold reads_frames. split_and!; [done|by rewrite <- Hout|done| |by left].
    apply Forall_forall. intros c Hc.
    rewrite Forall_forall in Hle, Hne. specialize (Hle c Hc). specialize (Hne c Hc).
    destruct c; [done|]. simpl in *. lia. }
  destruct (readLoop_frames sk n b cs [] (mjoin ps) Hinv) as (b' & cs' & Hread & _);
    [by rewrite <- Hcat|].
  exists b'. exact Hread.
Qed.


(** X5. One Write call, one last chunk of its own: a Write of at least
    one byte on a writer with an empty buffer emits full chunks of
    [maxChunkSize] bytes and then a last chunk of 1 to [maxChunkSize]
    bytes, leaves the buffer empty, and makes the sink grow by the length
    of the plaintext plus 48 bytes for each chunk. *)
Theorem Write_emits_full_chunks_then_rest w p w' n err :
  EncWriter.buf w = [] → p ≠ [] →
  EncWriter_Write w p = Return (w', n) err →
  err = None ∧ n = length p ∧ EncWriter.buf w' = [] ∧
  ∃ cs nonce last,
    EncWriter.out w' =
      EncWriter.out w ++ frames (EncWriter.secretKey w) (cs ++ [(nonce, last)]) ∧
    Forall (λ c, length c = maxChunkSize) cs.*2 ∧
    1 ≤ length last ≤ maxChunkSize ∧
    mjoin cs.*2 ++ last = p ∧
    length (EncWriter.out w') = length (EncWriter.out w) + length p + 48 * S (length cs).
Proof.
  intros Hnil Hp Hw. pose proof Hw as Hw'.
  apply Write_Return in Hw' as (-> & -> & Hnil' & _); [|rewrite Hnil; simpl; lia].
  apply Write_shape in Hw as (cs & nonce & last & Hem & Hall & Hlast & Hcat); [|done|done].
  destruct Hem as (Hout & _ & _ & Hnl & _).
  split; [done|]. split; [done|]. split; [done|].
  exists cs, nonce, last. split_and!; [done|done|lia|lia|done|].
  rewrite Hout, length_app, length_frames by done.
  rewrite fmap_app, join_app. cbn [fmap list_fmap snd mjoin list_join].
  rewrite app_nil_r, Hcat, length_app. simpl. lia.
Qed.

End stream_properties.

(** ** The file operations *)

Section file_properties.
Context `{!AEAD, !MAC, !KDF}.

(** X7. A file too short to hold a header: [decryptFile] on fewer than
    [headerSize] = 105 bytes fails in [binary.Read], with io.EOF when the
    file is empty and io.ErrUnexpectedEOF otherwise, whatever the
    passphrase, and has written nothing. *)
Theorem decryptFile_of_short_file pw input :
  length input < headerSize →
  decryptFile pw input =
    Some (Failed (if decide (input = []) then EOF else ErrUnexpectedEOF) []).
Proof. apply decryptFile_short. Qed.

(** X8. The cost parameters of the header are used before the file is
    authenticated: on any file that begins with a header whose argon_time
    or argon_lanes is 0, whatever follows the header and whatever tag it
    carries, [decryptFile] panics inside argon2.IDKey. *)
Theorem decryptFile_panics_on_zero_cost_header pw h rest :
  header_wf h → ArgonTime h = 0%Z ∨ ArgonLanes h = 0%Z →
  ∃ msg, decryptFile pw (encodeHeader h ++ rest) = Some (Crashed msg).
Proof.
  intros Hwf Hzero.
  pose proof (length_encodeHeader_wf h Hwf) as Hlen.
  rewrite decryptFile_long by (rewrite length_app; lia).
  cbv zeta. rewrite take_app_length' by done.
  rewrite <- (app_nil_r (encodeHeader h)), decodeHeader_encodeHeader by done.
  unfold IDKey.
  destruct Hzero as [-> | ->].
  - rewrite decide_True by lia. by eexists.
  - destruct (decide _); [by eexists|]. rewrite decide_True by lia. by eexists.
Qed.

(** X9. Nothing is decrypted before the tag has been checked: whenever
    [decryptFile] returns with a file put in place, or fails after bytes
    were written to the temporary file, the input held a whole header,
    argon2.IDKey returned for its parameters, and BLAKE2b-512 of everything
    after the header, under the second half of the derived key, equals the
    tag of the header. *)
Theorem output_only_after_tag_check pw input r :
  decryptFile pw input = Some r →
  (∃ out, r = Renamed out) ∨ (∃ e out, r = Failed e out ∧ out ≠ []) →
  headerSize ≤ length input ∧
  ∃ sk macKey,
    keysOf pw (decodeHeader (take headerSize input)) = Some (sk, macKey) ∧
    copyArray 64 (blake2b512 macKey (drop headerSize input))
      = Tag (decodeHeader (take headerSize input)).
Proof.
  intros Hdec Hr.
  destruct (decide (length input < headerSize)) as [Hshort|Hlong].
  { rewrite decryptFile_short in Hdec by done. injection Hdec as <-.
    destruct Hr as [[out Hr]|(e & out & Hr & Hne)]; [done|]. by injection Hr as <- <-. }
  split; [lia|].
  rewrite decryptFile_long in Hdec by lia. cbv zeta in Hdec. unfold keysOf.
  destruct (IDKey _ _ _ _ _ _) as [skb e|].
  2:{ injection Hdec as <-. destruct Hr as [[out Hr]|(e & out & Hr & Hne)]; done. }
  eexists _, _. split; [done|].
  destruct (decide _) as [Htag|Htag]; [done|].
  injection Hdec as <-.
  destruct Hr as [[out Hr]|(e' & out & Hr & Hne)]; [done|]. by injection Hr as <- <-.
Qed.

(** X10. Both file operations return: on every passphrase, input, entropy
    tape and CPU count, [encryptFile] and [decryptFile] end, with a file
    put in place, an error or a panic; the copy loops need no more rounds
    than the input has bytes, plus one. *)
Theorem file_operations_return pw input rand numCPU :
  encryptFile pw input rand numCPU ≠ None ∧ decryptFile pw input ≠ None.
Proof.
  split; [apply encryptFile_returns|].
  destruct (decide (length input < headerSize)) as [Hshort|Hlong].
  { by rewrite decryptFile_short. }
  rewrite decryptFile_long by lia. cbv zeta.
  destruct (IDKey _ _ _ _ _ _) as [skb e|]; [|done].
  destruct (decide _); [|done].
  set (b := NewReader _ _).
  pose proof (ioCopy_decrypt_fuel (S (length input)) b [] 0) as Hfuel.
  destruct (ioCopy _ _ _ _) as [[[[? ?] ?] [?|]|]|]; try done.
  exfalso. apply Hfuel; [simpl; lia| |done].
  unfold b, remaining. cbn [NewReader DecReader.in_ content pos].
  rewrite length_drop. lia.
Qed.

(** X11. When encryption produces a file: with a lanes byte that is not
    0, 32 bytes of entropy for the salt and after them [k] fresh nonces,
    [encryptFile] on a plaintext of at most [k * maxChunkSize] bytes
    returns nil and puts a file in place, and [decryptFile] under the same
    passphrase turns that file into the plaintext again. *)
Theorem encryptFile_produces_a_file pw P rand numCPU k :
  (1 ≤ defaultArgonLanes numCPU)%Z →
  saltSize ≤ length rand →
  fresh_nonces ∅ (drop saltSize rand) k →
  length P ≤ k * maxChunkSize →
  ∃ file, encryptFile pw P rand numCPU = Some (Renamed file) ∧
          decryptFile pw file = Some (Renamed P).
Proof.
  intros Hlanes Hsalt Hsup Hk.
  destruct (encryptFile_succeeds pw P rand numCPU k Hlanes Hsalt Hsup Hk) as (file & Henc).
  exists file. split; [done|].
  apply encryptFile_Renamed in Henc
    as (h & sk & macKey & cs & rand' & Hwf & Hkeys & _ & _ & _ & _ & Htag & -> & <- & Hcl & Hnl & _).
  by apply (decryptFile_frames pw h sk macKey).
Qed.

(** X12. No salt: with fewer than 32 bytes of entropy left, [encryptFile]
    returns the error "could not generate secret key" before it has
    written a byte, whatever the input. *)
Theorem encryptFile_without_salt_entropy pw P rand numCPU :
  length rand < saltSize →
  encryptFile pw P rand numCPU = Some (Failed errGenerateKey []).
Proof.
  intros Hrand. unfold encryptFile, generateKey. by rewrite decide_True.
Qed.

(** X13. A lanes byte of 0: when twice the CPU count is a multiple of 256
    and the salt could be drawn, [encryptFile] panics inside argon2.IDKey,
    whatever the passphrase and the input. *)
Theorem encryptFile_panics_on_zero_lanes pw P rand numCPU :
  (numCPU mod 128 = 0)%Z → saltSize ≤ length rand →
  encryptFile pw P rand numCPU = Some (Crashed "argon2: parallelism degree too low").
Proof.
  intros Hcpu Hrand. unfold encryptFile, generateKey.
  rewrite decide_False by lia.
  cbn [Salt ArgonTime ArgonMemory ArgonLanes]. unfold IDKey.
  rewrite decide_False by (unfold defaultArgonTime; lia).
  rewrite decide_True; [done|].
  unfold defaultArgonLanes, uint8.
  assert ((numCPU * 2) mod 2 ^ 8 = 0)%Z; [|lia].
  change (2 ^ 8)%Z with (128 * 2)%Z.
  rewrite Z.mul_mod_distr_r by lia. lia.
Qed.

(** X14. No nonce: when the key was derived and fewer than 24 bytes of
    entropy are left after the salt, [encryptFile] on an input that is not
    empty panics in [writeChunk] with "could not read entropy for
    encryption". *)
Theorem encryptFile_panics_without_nonce_entropy pw P rand numCPU :
  (1 ≤ defaultArgonLanes numCPU)%Z →
  saltSize ≤ length rand < saltSize + nonceSize → P ≠ [] →
  encryptFile pw P rand numCPU =
    Some (Crashed "could not read entropy for encryption").
Proof.
  intros Hlanes Hrand HP. unfold encryptFile, generateKey.
  rewrite decide_False by lia.
  cbn [Salt ArgonTime ArgonMemory ArgonLanes]. unfold IDKey.
  rewrite decide_False by (unfold defaultArgonTime; lia).
  rewrite decide_False by lia.
  cbn [content ioCopy]. set (w := NewWriter _ _ _).
  change (Read {| content := P; pos := 0 |} copyBufSize)
    with (fileRead {| content := P; pos := 0 |} copyBufSize).
  pose proof copyBufSize_pos as Hpos.
  unfold fileRead. rewrite decide_False by lia.
  change (remaining {| content := P; pos := 0 |}) with P.
  rewrite decide_False by (destruct P; [done|]; destruct copyBufSize; [lia|done]).
  cbv beta iota.
  rewrite decide_True by (destruct P; [done|]; destruct copyBufSize; [lia|simpl; lia]).
  change (Write w (take copyBufSize P)) with (EncWriter_Write w (take copyBufSize P)).
  rewrite Write_no_entropy; [done|done| |].
  - destruct P; [done|]. destruct copyBufSize; [lia|done].
  - unfold w. cbn [NewWriter EncWriter.rand]. rewrite length_drop. lia.
Qed.
End file_properties.

(** ** The decryptor on sources that are not whole *)

Section decryptor_properties.
Context `{!AEAD}.

(** X15. binary.Read refuses no header: any 105 bytes decode to a header
    whose fields fit their Go types, and writing that header gives the
    same 105 bytes back. No two different byte strings parse to the same
    header. *)
Theorem header_decode_encode bs :
  length bs = headerSize →
  header_wf (decodeHeader bs) ∧ encodeHeader (decodeHeader bs) = bs.
Proof.
  intros Hlen. unfold headerSize in Hlen.
  assert (H4a : length (take 4 (drop 32 bs)) = 4) by (rewrite length_take, length_drop; lia).
  assert (H4b : length (take 4 (drop 36 bs)) = 4) by (rewrite length_take, length_drop; lia).
  assert (H1 : length (take 1 (drop 40 bs)) = 1) by (rewrite length_take, length_drop; lia).
  split.
  - unfold header_wf, decodeHeader. cbn [Salt ArgonTime ArgonMemory ArgonLanes Tag].
    pose proof (getUintLE_bound (take 4 (drop 32 bs))) as Ha.
    pose proof (getUintLE_bound (take 4 (drop 36 bs))) as Hb.
    pose proof (getUintLE_bound (take 1 (drop 40 bs))) as Hc.
    rewrite H4a in Ha. rewrite H4b in Hb. rewrite H1 in Hc.
    change (256 ^ Z.of_nat 4)%Z with (2 ^ 32)%Z in *.
    change (256 ^ Z.of_nat 1)%Z with (2 ^ 8)%Z in *.
    rewrite !length_take, !length_drop. split_and!; lia.
  - unfold encodeHeader, decodeHeader. cbn [Salt ArgonTime ArgonMemory ArgonLanes Tag].
    rewrite !putUintLE_getUintLE by done.
    rewrite <- (take_drop 32 bs) at 6.
    f_equal.
    rewrite <- (take_drop 4 (drop 32 bs)) at 2. rewrite drop_drop. f_equal.
    change (32 + 4) with 36.
    rewrite <- (take_drop 4 (drop 36 bs)) at 2. rewrite drop_drop. f_equal.
    change (36 + 4) with 40.
    rewrite <- (take_drop 1 (drop 40 bs)) at 2. rewrite drop_drop. f_equal.
    change (40 + 1) with 41.
    apply take_ge. rewrite length_drop. lia.
Qed.

(** X16. The count of a Read: on any source, well-formed or not, a Read
    into a slice of [n] bytes that returns delivers at most [n] bytes,
    and exactly [n] when it returns no error. *)
Theorem Read_count b n b' data err :
  DecReader_Read b n = Return (b', data) err →
  length data ≤ n ∧ (err = None → length data = n).
Proof.
  intros Hread. apply readLoop_length in Hread as (d & -> & Hle & Heq). done.
Qed.

(** X17. An oversize length is refused early: when a decryptor between
    two chunks finds a length field above [maxChunkSize + 16], a Read of
    at least one byte returns the error "chunk too large" with no byte;
    it has consumed the 24 bytes of the nonce and the 8 of the length and
    nothing more, and did not touch its decrypted chunk. *)
Theorem Read_refuses_oversize_length b n nonce sizeBytes rest :
  0 < n → DecReader.index b = 0 →
  remaining (DecReader.in_ b) = nonce ++ sizeBytes ++ rest →
  length nonce = nonceSize → length sizeBytes = 8 →
  (Z.of_nat (maxChunkSize + 16) < getUintLE sizeBytes)%Z →
  ∃ b', DecReader_Read b n = Return (b', []) (Some errChunkTooLarge) ∧
        remaining (DecReader.in_ b') = rest ∧
        DecReader.buf b' = DecReader.buf b ∧ DecReader.index b' = 0.
Proof.
  intros Hn Hi Hrem Hnl Hsl Hsize.
  destruct (nextChunk_oversize b nonce sizeBytes rest Hrem Hnl Hsl Hsize) as (f' & Hnext & Hrest).
  destruct n as [|n]; [lia|].
  unfold DecReader_Read. cbn [readLoop]. rewrite decide_True by done. rewrite Hnext.
  eexists. split; [done|]. by cbn [DecReader.in_ DecReader.buf DecReader.index].
Qed.

(** X18. A stream cut right after a nonce, or right after the length of a
    chunk, ends like a whole one: io.Copy from a decryptor whose source
    holds well-formed frames followed by exactly such a stump writes the
    plaintext of the frames and returns no error. (In [decryptFile] the
    tag over the whole region is what catches the cut.) *)
Theorem copy_of_cut_stream_ends_cleanly sk cs tail fuel :
  Forall (λ n, length n = nonceSize) cs.*1 →
  Forall (λ c, 1 ≤ length c ≤ maxChunkSize) cs.*2 →
  length tail = nonceSize ∨
    (∃ nonce sizeBytes, tail = nonce ++ sizeBytes ∧ length nonce = nonceSize ∧
       length sizeBytes = 8 ∧
       (0 < getUintLE sizeBytes ≤ Z.of_nat (maxChunkSize + 16))%Z) →
  length (mjoin cs.*2) < fuel →
  ∃ b', ioCopy fuel ([] : bytes)
          (NewReader sk {| content := frames sk cs ++ tail; pos := 0 |}) 0
        = Some (Return (mjoin cs.*2, b', length (mjoin cs.*2)) None).
Proof.
  intros Hnl Hcl Htail Hfuel.
  set (b := NewReader sk _).
  assert (Hinv : reads_frames_then sk b cs tail).
  { unfold reads_frames_then. split_and!; [done|done|done|done|by left]. }
  destruct (ioCopy_decrypt_then sk tail EOF fuel b cs [] 0 (mjoin cs.*2) Hinv eq_refl Hfuel)
    as (b' & Hcopy).
  { intros b1 _ Hrem.
    destruct Htail as [Hlen|(nonce & sizeBytes & -> & Hn & Hs & Hsize)].
    - apply nextChunk_cut_after_nonce. by rewrite Hrem.
    - by apply (nextChunk_cut_after_length b1 nonce sizeBytes). }
  exists b'. rewrite Hcopy. by rewrite decide_True.
Qed.

(** X19. A stream cut inside a nonce: io.Copy writes the plaintext of the
    whole frames before the cut and then returns io.ErrUnexpectedEOF. *)
Theorem copy_of_stream_cut_in_nonce sk cs tail fuel :
  Forall (λ n, length n = nonceSize) cs.*1 →
  Forall (λ c, 1 ≤ length c ≤ maxChunkSize) cs.*2 →
  0 < length tail < nonceSize →
  length (mjoin cs.*2) < fuel →
  ∃ b', ioCopy fuel ([] : bytes)
          (NewReader sk {| content := frames sk cs ++ tail; pos := 0 |}) 0
        = Some (Return (mjoin cs.*2, b', length (mjoin cs.*2)) (Some ErrUnexpectedEOF)).
Proof.
  intros Hnl Hcl Htail Hfuel.
  set (b := NewReader sk _).
  assert (Hinv : reads_frames_then sk b cs tail).
  { unfold reads_frames_then. split_and!; [done|done|done|done|by left]. }
  destruct (ioCopy_decrypt_then sk tail ErrUnexpectedEOF fuel b cs [] 0 (mjoin cs.*2)
              Hinv eq_refl Hfuel) as (b' & Hcopy).
  { intros b1 _ Hrem. apply nextChunk_cut_in_nonce. by rewrite Hrem. }
  exists b'. rewrite Hcopy. by rewrite decide_False.
Qed.

(** X20. Plaintext leaves the decryptor before later frames are checked:
    when well-formed frames are followed by a frame that the AEAD refuses
    under the key, io.Copy has written the plaintext of all the frames
    before it when it returns the AEAD's error. *)
Theorem copy_stops_at_refused_frame sk cs nonce ct rest fuel :
  Forall (λ n, length n = nonceSize) cs.*1 →
  Forall (λ c, 1 ≤ length c ≤ maxChunkSize) cs.*2 →
  length nonce = nonceSize → length ct ≤ maxChunkSize + 16 →
  open sk nonce ct = None →
  length (mjoin cs.*2) < fuel →
  ∃ b', ioCopy fuel ([] : bytes)
          (NewReader sk
             {| content := frames sk cs ++ nonce ++ putUintLE 8 (Z.of_nat (length ct))
                             ++ ct ++ rest;
                pos := 0 |}) 0
        = Some (Return (mjoin cs.*2, b', length (mjoin cs.*2)) (Some errOpen)).
Proof.
  intros Hnl Hcl Hn Hct Hopen Hfuel.
  set (tail := nonce ++ _).
  set (b := NewReader sk _).
  assert (Hinv : reads_frames_then sk b cs tail).
  { unfold reads_frames_then. split_and!; [done|done|done|done|by left]. }
  destruct (ioCopy_decrypt_then sk tail errOpen fuel b cs [] 0 (mjoin cs.*2)
              Hinv eq_refl Hfuel) as (b' & Hcopy).
  { intros b1 Hkey Hrem. apply (nextChunk_bad_frame b1 nonce ct rest); [done|done|done|].
    by rewrite Hkey. }
  exists b'. rewrite Hcopy. by rewrite decide_False.
Qed.
End decryptor_properties.

(** ** The test helper [nonceReuse] at work *)

Section nonce_reuse_properties.
Context `{!AEAD, !HASH}.

(** X21. What the test helper [nonceReuse] answers on well-formed frames:
    true exactly when two of the frames carry nonces with the same
    SHA-256 sum; it does not panic. In particular it answers true
    whenever a nonce occurs twice. *)
Theorem nonceReuse_on_frames sk makeLimit cs :
  Forall (λ n, length n = nonceSize) cs.*1 →
  Forall (λ c, length c ≤ maxChunkSize) cs.*2 →
  (Z.of_nat (maxChunkSize + overhead) ≤ makeLimit)%Z →
  nonceReuse makeLimit (frames sk cs)
    = Some (Answer (bool_decide (¬ NoDup (Sum256 <$> cs.*1)))) ∧
  (¬ NoDup cs.*1 → nonceReuse makeLimit (frames sk cs) = Some (Answer true)).
Proof.
  intros Hnl Hcl Hlim.
  assert (Hrun : nonceReuse makeLimit (frames sk cs)
                 = Some (Answer (bool_decide (¬ NoDup (Sum256 <$> cs.*1))))).
  { unfold nonceReuse.
    rewrite (nonceReuseLoop_frames sk makeLimit cs); [|done|done|done|done|].
    - do 2 f_equal. apply bool_decide_ext.
      split; intros Hneg Hnd; apply Hneg; [split; [done|]|by destruct Hnd].
      apply Forall_forall. intros s _. apply not_elem_of_empty.
    - pose proof (length_frames_count sk cs). lia. }
  split; [done|].
  intros Hdup. rewrite Hrun. do 2 f_equal. apply bool_decide_eq_true_2.
  intros Hnd. apply Hdup. by apply NoDup_fmap_1 in Hnd.
Qed.

(** X22. The check of TestSecureBuffers passes: on what a new encryptor
    has written over any sequence of Write calls, [nonceReuse] answers
    false, provided SHA-256 does not collide on nonces. *)
Theorem nonceReuse_on_encryptor_output sk rand ps w' err makeLimit :
  (∀ n1 n2, length n1 = nonceSize → length n2 = nonceSize →
     Sum256 n1 = Sum256 n2 → n1 = n2) →
  (Z.of_nat (maxChunkSize + overhead) ≤ makeLimit)%Z →
  writeAll (NewWriter sk [] rand) ps = Return w' err →
  nonceReuse makeLimit (EncWriter.out w') = Some (Answer false).
Proof.
  intros Hinj Hlim Hall.
  apply writeAll_Return in Hall as (_ & _ & cs & Hem & _ & Hcl & _); [|done].
  destruct Hem as (Hout & _ & _ & Hnl & Hnd & _).
  cbn [NewWriter EncWriter.out EncWriter.secretKey app] in Hout.
  rewrite Hout. unfold nonceReuse.
  rewrite (nonceReuseLoop_frames sk makeLimit cs); [|done|done|done|done|].
  2:{ pose proof (length_frames_count sk cs). lia. }
  do 2 f_equal. apply bool_decide_eq_false_2.
  intros Hneg. apply Hneg.
  split; [|apply Forall_forall; intros s _; apply not_elem_of_empty].
  clear Hneg Hout Hcl. induction Hnd as [|n ns Hn Hnd IH]; [constructor|].
  rewrite fmap_cons. apply Forall_cons in Hnl as [Hlen Hnl].
  apply NoDup_cons. split; [|by apply IH].
  intros (n' & Heq & Hin')%list_elem_of_fmap.
  rewrite Forall_forall in Hnl.
  rewrite (Hinj n n' Hlen (Hnl _ Hin') Heq) in Hn. done.
Qed.

(** X23. [nonceReuse] ends on every input, with an answer or a panic: a
    round that goes on has taken at least one byte out of the buffer, so
    there are no more rounds than bytes, plus one. *)
Theorem nonceReuse_ends makeLimit ciphertext :
  nonceReuse makeLimit ciphertext ≠ None.
Proof.
  unfold nonceReuse. apply nonceReuseLoop_fuel.
  change (remaining {| content := ciphertext; pos := 0 |}) with ciphertext. lia.
Qed.
End nonce_reuse_properties.

(** ** Another passphrase *)

Section passphrase_properties.
Context `{!AEAD, !MAC, !KDF}.

(** X24. Another passphrase: when the tag that the key derived from
    another passphrase gives for the ciphertext region differs from the
    tag in the header, [decryptFile] under that passphrase fails with
    errBadMAC and has written nothing; the chunks are never opened. *)
Theorem other_passphrase_is_rejected pw pw' P rand numCPU file sk' macKey' :
  encryptFile pw P rand numCPU = Some (Renamed file) →
  keysOf pw' (decodeHeader (take headerSize file)) = Some (sk', macKey') →
  copyArray 64 (blake2b512 macKey' (drop headerSize file))
    ≠ Tag (decodeHeader (take headerSize file)) →
  decryptFile pw' file = Some (Failed errBadMAC []).
Proof.
  intros Henc Hkeys Htag.
  apply encryptFile_Renamed in Henc
    as (h & sk & macKey & cs & rand' & Hwf & _ & _ & _ & _ & _ & _ & -> & _).
  pose proof (length_encodeHeader_wf h Hwf) as Hlen.
  rewrite take_app_length' in Hkeys, Htag by done.
  rewrite drop_app_length' in Htag by done.
  rewrite <- (app_nil_r (encodeHeader h)) in Hkeys, Htag.
  rewrite decodeHeader_encodeHeader in Hkeys, Htag by done.
  by apply (decryptFile_bad_tag pw' h sk' macKey').
Qed.
End passphrase_properties.

(** * Further concrete runs *)

Section further_runs.
#[local] Existing Instances refAEAD refMAC refKDF refHASH.
Import Byte.

Lemma refSum256_inj n1 n2 :
  length n1 = nonceSize → length n2 = nonceSize →
  refSum256 n1 = refSum256 n2 → n1 = n2.
Proof.
  intros H1 H2. unfold refSum256, copyArray, nonceSize in *.
  rewrite !take_ge, H1, H2 by lia. apply app_inv_tail.
Qed.

(** X1 at the header of the sample file, followed by the sample plaintext. *)
Lemma header_roundtrip_witness :
  header_wf sampleHeader ∧
  length (encodeHeader sampleHeader) = headerSize ∧
  decodeHeader (encodeHeader sampleHeader ++ samplePlaintext) = sampleHeader.
Proof.
  assert (Hwf : header_wf sampleHeader)
    by (unfold header_wf; vm_compute; split_and!; done).
  split; [exact Hwf|].
  exact (header_roundtrip sampleHeader samplePlaintext Hwf).
Defined.

(** X3 at one Write of "this is a test" and a Read of 5 bytes. *)
Lemma write_then_read_roundtrip_witness :
  ∃ w' b',
    writeAll (NewWriter sampleKey [] sampleEntropy) [samplePlaintext] = Return w' None ∧
    DecReader_Read (NewReader sampleKey {| content := EncWriter.out w'; pos := 0 |}) 5
      = Return (b', take 5 (mjoin [samplePlaintext]))
          (if decide (length (mjoin [samplePlaintext]) < 5) then Some EOF else None).
Proof.
  assert (Hps : Forall (λ p : bytes, p ≠ []) [samplePlaintext])
    by (repeat constructor; discriminate).
  destruct (writeAll (NewWriter sampleKey [] sampleEntropy) [samplePlaintext])
    as [w' [e|]|] eqn:Hall;
    [vm_compute in Hall; discriminate Hall| |vm_compute in Hall; discriminate Hall].
  destruct (write_then_read_roundtrip sampleKey sampleEntropy [samplePlaintext] w' None 5
              Hps Hall) as (b' & Hread).
  exists w', b'. split; [reflexivity|exact Hread].
Defined.


(** X5 at one Write of "this is a test". *)
Lemma Write_emits_full_chunks_then_rest_witness :
  ∃ w' cs nonce last,
    EncWriter_Write (NewWriter sampleKey [] sampleEntropy) samplePlaintext
      = Return (w', 14) None ∧
    EncWriter.out w' = [] ++ frames sampleKey (cs ++ [(nonce, last)]) ∧
    mjoin cs.*2 ++ last = samplePlaintext ∧
    length (EncWriter.out w') = 0 + length samplePlaintext + 48 * S (length cs).
Proof.
  assert (Hnil : EncWriter.buf (NewWriter sampleKey [] sampleEntropy) = []) by reflexivity.
  assert (Hp : samplePlaintext ≠ []) by discriminate.
  destruct (EncWriter_Write (NewWriter sampleKey [] sampleEntropy) samplePlaintext)
    as [[w' n] err|] eqn:Hw; [|vm_compute in Hw; discriminate Hw].
  destruct (Write_emits_full_chunks_then_rest _ _ w' n err Hnil Hp Hw)
    as (-> & -> & _ & cs & nonce & last & Hout & _ & _ & Hcat & Hlen).
  exists w', cs, nonce, last. split; [reflexivity|]. split; [exact Hout|].
  split; [exact Hcat|exact Hlen].
Defined.


(** X7 at a file of 30 bytes. *)
Lemma decryptFile_of_short_file_witness :
  length sampleCutFrame < headerSize ∧
  decryptFile samplePassphrase sampleCutFrame =
    Some (Failed (if decide (sampleCutFrame = []) then EOF else ErrUnexpectedEOF) []).
Proof.
  assert (Hlen : length sampleCutFrame < headerSize) by (vm_compute; lia).
  split; [exact Hlen|].
  exact (decryptFile_of_short_file samplePassphrase sampleCutFrame Hlen).
Defined.

(** X8 at a header with a lanes byte of 0, followed by nothing. *)
Lemma decryptFile_panics_on_zero_cost_header_witness :
  header_wf sampleZeroLanesHeader ∧
  ∃ msg, decryptFile samplePassphrase (encodeHeader sampleZeroLanesHeader ++ [])
         = Some (Crashed msg).
Proof.
  assert (Hwf : header_wf sampleZeroLanesHeader)
    by (unfold header_wf; vm_compute; split_and!; done).
  assert (Hzero : ArgonTime sampleZeroLanesHeader = 0%Z ∨ ArgonLanes sampleZeroLanesHeader = 0%Z)
    by (right; reflexivity).
  split; [exact Hwf|].
  exact (decryptFile_panics_on_zero_cost_header samplePassphrase _ [] Hwf Hzero).
Defined.

(** X9 at the sample file. *)
Lemma output_only_after_tag_check_witness :
  decryptFile samplePassphrase sampleFile = Some (Renamed samplePlaintext) ∧
  headerSize ≤ length sampleFile ∧
  ∃ sk macKey,
    keysOf samplePassphrase (decodeHeader (take headerSize sampleFile)) = Some (sk, macKey) ∧
    copyArray 64 (blake2b512 macKey (drop headerSize sampleFile))
      = Tag (decodeHeader (take headerSize sampleFile)).
Proof.
  assert (Hdec : decryptFile samplePassphrase sampleFile = Some (Renamed samplePlaintext))
    by (vm_compute; reflexivity).
  split; [exact Hdec|].
  exact (output_only_after_tag_check _ _ _ Hdec (or_introl (ex_intro _ _ eq_refl))).
Defined.

(** X11 at "this is a test", four CPUs and the sample entropy. *)
Lemma encryptFile_produces_a_file_witness :
  ∃ file,
    encryptFile samplePassphrase samplePlaintext sampleEntropy 4 = Some (Renamed file) ∧
    decryptFile samplePassphrase file = Some (Renamed samplePlaintext).
Proof.
  assert (Hlanes : (1 ≤ defaultArgonLanes 4)%Z) by (vm_compute; discriminate).
  assert (Hsalt : saltSize ≤ length sampleEntropy) by (vm_compute; lia).
  assert (Hsup : fresh_nonces ∅ (drop saltSize sampleEntropy) 1).
  { split; [vm_compute; lia|]. split; [apply not_elem_of_empty|exact I]. }
  assert (Hk : length samplePlaintext ≤ 1 * maxChunkSize)
    by (pose proof maxChunkSize_Z; simpl; lia).
  exact (encryptFile_produces_a_file samplePassphrase samplePlaintext sampleEntropy 4 1
           Hlanes Hsalt Hsup Hk).
Defined.

(** X12 at an empty entropy tape. *)
Lemma encryptFile_without_salt_entropy_witness :
  encryptFile samplePassphrase samplePlaintext [] 4 = Some (Failed errGenerateKey []).
Proof.
  assert (Hrand : length ([] : bytes) < saltSize) by (unfold saltSize; simpl; lia).
  exact (encryptFile_without_salt_entropy samplePassphrase samplePlaintext [] 4 Hrand).
Defined.

(** X13 at 128 CPUs. *)
Lemma encryptFile_panics_on_zero_lanes_witness :
  encryptFile samplePassphrase samplePlaintext sampleEntropy 128
    = Some (Crashed "argon2: parallelism degree too low").
Proof.
  assert (Hcpu : (128 mod 128 = 0)%Z) by reflexivity.
  assert (Hsalt : saltSize ≤ length sampleEntropy) by (vm_compute; lia).
  exact (encryptFile_panics_on_zero_lanes samplePassphrase samplePlaintext sampleEntropy 128
           Hcpu Hsalt).
Defined.

(** X14 at 40 bytes of entropy: a salt and a third of a nonce. *)
Lemma encryptFile_panics_without_nonce_entropy_witness :
  encryptFile samplePassphrase samplePlaintext (take 40 sampleEntropy) 4
    = Some (Crashed "could not read entropy for encryption").
Proof.
  assert (Hlanes : (1 ≤ defaultArgonLanes 4)%Z) by (vm_compute; discriminate).
  assert (Hrand : saltSize ≤ length (take 40 sampleEntropy) < saltSize + nonceSize)
    by (vm_compute; lia).
  assert (HP : samplePlaintext ≠ []) by discriminate.
  exact (encryptFile_panics_without_nonce_entropy samplePassphrase samplePlaintext
           (take 40 sampleEntropy) 4 Hlanes Hrand HP).
Defined.

(** X15 at the first 105 bytes of the sample file. *)
Lemma header_decode_encode_witness :
  header_wf (decodeHeader (take headerSize sampleFile)) ∧
  encodeHeader (decodeHeader (take headerSize sampleFile)) = take headerSize sampleFile.
Proof.
  assert (Hlen : length (take headerSize sampleFile) = headerSize)
    by (vm_compute; reflexivity).
  exact (header_decode_encode (take headerSize sampleFile) Hlen).
Defined.

(** X16 at a Read of 5 bytes from the region of the sample file. *)
Lemma Read_count_witness :
  ∃ b' data err,
    DecReader_Read (NewReader sampleSk {| content := sampleFile; pos := headerSize |}) 5
      = Return (b', data) err ∧
    length data ≤ 5 ∧ (err = None → length data = 5).
Proof.
  destruct (DecReader_Read (NewReader sampleSk {| content := sampleFile; pos := headerSize |}) 5)
    as [[b' data] err|] eqn:Hread; [|vm_compute in Hread; discriminate Hread].
  exists b', data, err. split; [reflexivity|].
  exact (Read_count _ 5 b' data err Hread).
Defined.

(** X17 at a length field of [maxChunkSize + 17]. *)
Lemma Read_refuses_oversize_length_witness :
  ∃ b', DecReader_Read (NewReader sampleKey {| content := sampleOversize; pos := 0 |}) 1
          = Return (b', []) (Some errChunkTooLarge) ∧
        remaining (DecReader.in_ b') = [x2a] ∧
        DecReader.buf b' = [] ∧ DecReader.index b' = 0.
Proof.
  assert (Hn : 0 < 1) by lia.
  assert (Hi : DecReader.index (NewReader sampleKey {| content := sampleOversize; pos := 0 |}) = 0)
    by reflexivity.
  assert (Hrem : remaining (DecReader.in_ (NewReader sampleKey {| content := sampleOversize; pos := 0 |}))
                 = replicate 24 x00 ++ putUintLE 8 (Z.of_nat (maxChunkSize + 17)) ++ [x2a])
    by reflexivity.
  assert (Hnl : length (replicate 24 x00) = nonceSize) by reflexivity.
  assert (Hsl : length (putUintLE 8 (Z.of_nat (maxChunkSize + 17))) = 8) by reflexivity.
  assert (Hsize : (Z.of_nat (maxChunkSize + 16)
                   < getUintLE (putUintLE 8 (Z.of_nat (maxChunkSize + 17))))%Z)
    by (vm_compute; reflexivity).
  exact (Read_refuses_oversize_length _ 1 _ _ _ Hn Hi Hrem Hnl Hsl Hsize).
Defined.

(** X18 at one frame followed by 24 bytes. *)
Lemma copy_of_cut_stream_ends_cleanly_witness :
  ∃ b', ioCopy 3 ([] : bytes)
          (NewReader sampleKey
             {| content := frames sampleKey sampleFrames ++ replicate 24 xff; pos := 0 |}) 0
        = Some (Return (mjoin sampleFrames.*2, b', length (mjoin sampleFrames.*2)) None).
Proof.
  assert (Hnl : Forall (λ n : bytes, length n = nonceSize) sampleFrames.*1)
    by (repeat constructor).
  assert (Hcl : Forall (λ c : bytes, 1 ≤ length c ≤ maxChunkSize) sampleFrames.*2)
    by (repeat apply Forall_cons_2; [| |apply Forall_nil_2]; pose proof maxChunkSize_Z; simpl; lia).
  assert (Hfuel : length (mjoin sampleFrames.*2) < 3) by (simpl; lia).
  exact (copy_of_cut_stream_ends_cleanly sampleKey sampleFrames (replicate 24 xff) 3
           Hnl Hcl (or_introl eq_refl) Hfuel).
Defined.

(** X19 at one frame followed by one byte. *)
Lemma copy_of_stream_cut_in_nonce_witness :
  ∃ b', ioCopy 3 ([] : bytes)
          (NewReader sampleKey
             {| content := frames sampleKey sampleFrames ++ [xff]; pos := 0 |}) 0
        = Some (Return (mjoin sampleFrames.*2, b', length (mjoin sampleFrames.*2))
                  (Some ErrUnexpectedEOF)).
Proof.
  assert (Hnl : Forall (λ n : bytes, length n = nonceSize) sampleFrames.*1)
    by (repeat constructor).
  assert (Hcl : Forall (λ c : bytes, 1 ≤ length c ≤ maxChunkSize) sampleFrames.*2)
    by (repeat apply Forall_cons_2; [| |apply Forall_nil_2]; pose proof maxChunkSize_Z; simpl; lia).
  assert (Htail : 0 < length [xff] < nonceSize) by (unfold nonceSize; simpl; lia).
  assert (Hfuel : length (mjoin sampleFrames.*2) < 3) by (simpl; lia).
  exact (copy_of_stream_cut_in_nonce sampleKey sampleFrames [xff] 3 Hnl Hcl Htail Hfuel).
Defined.

(** X20 at one frame followed by a frame with an altered ciphertext. *)
Lemma copy_stops_at_refused_frame_witness :
  ∃ b', ioCopy 3 ([] : bytes)
          (NewReader sampleKey
             {| content := frames sampleKey sampleFrames ++ replicate 24 x02
                             ++ putUintLE 8 (Z.of_nat (length sampleBadCiphertext))
                             ++ sampleBadCiphertext ++ [];
                pos := 0 |}) 0
        = Some (Return (mjoin sampleFrames.*2, b', length (mjoin sampleFrames.*2))
                  (Some errOpen)).
Proof.
  assert (Hnl : Forall (λ n : bytes, length n = nonceSize) sampleFrames.*1)
    by (repeat constructor).
  assert (Hcl : Forall (λ c : bytes, 1 ≤ length c ≤ maxChunkSize) sampleFrames.*2)
    by (repeat apply Forall_cons_2; [| |apply Forall_nil_2]; pose proof maxChunkSize_Z; simpl; lia).
  assert (Hn : length (replicate 24 x02) = nonceSize) by reflexivity.
  assert (Hct : length sampleBadCiphertext ≤ maxChunkSize + 16)
    by (pose proof maxChunkSize_Z; simpl; lia).
  assert (Hopen : open sampleKey (replicate 24 x02) sampleBadCiphertext = None)
    by (vm_compute; reflexivity).
  assert (Hfuel : length (mjoin sampleFrames.*2) < 3) by (simpl; lia).
  exact (copy_stops_at_refused_frame sampleKey sampleFrames _ _ [] 3
           Hnl Hcl Hn Hct Hopen Hfuel).
Defined.

(** X21 at two frames with different nonces, and at a frame repeated. *)
Lemma nonceReuse_on_frames_witness :
  nonceReuse (2 ^ 48) (frames sampleKey (sampleFrames ++ sampleFrames)) = Some (Answer true).
Proof.
  assert (Hnl : Forall (λ n : bytes, length n = nonceSize) (sampleFrames ++ sampleFrames).*1)
    by (repeat constructor).
  assert (Hcl : Forall (λ c : bytes, length c ≤ maxChunkSize) (sampleFrames ++ sampleFrames).*2)
    by (repeat apply Forall_cons_2; [| | | |apply Forall_nil_2];
        pose proof maxChunkSize_Z; simpl; lia).
  assert (Hlim : (Z.of_nat (maxChunkSize + overhead) ≤ 2 ^ 48)%Z)
    by (pose proof maxChunkSize_Z; unfold overhead; lia).
  assert (Hdup : ¬ NoDup (sampleFrames ++ sampleFrames).*1).
  { intros Hnd. apply NoDup_cons in Hnd as [Hhd _]. apply Hhd.
    right. left. }
  exact (proj2 (nonceReuse_on_frames sampleKey (2 ^ 48) _ Hnl Hcl Hlim) Hdup).
Defined.

(** X22 at one Write of "this is a test". *)
Lemma nonceReuse_on_encryptor_output_witness :
  ∃ w', writeAll (NewWriter sampleKey [] sampleEntropy) [samplePlaintext] = Return w' None ∧
        nonceReuse (2 ^ 48) (EncWriter.out w') = Some (Answer false).
Proof.
  assert (Hlim : (Z.of_nat (maxChunkSize + overhead) ≤ 2 ^ 48)%Z)
    by (pose proof maxChunkSize_Z; unfold overhead; lia).
  destruct (writeAll (NewWriter sampleKey [] sampleEntropy) [samplePlaintext])
    as [w' [e|]|] eqn:Hall;
    [vm_compute in Hall; discriminate Hall| |vm_compute in Hall; discriminate Hall].
  exists w'. split; [reflexivity|].
  exact (nonceReuse_on_encryptor_output sampleKey sampleEntropy [samplePlaintext] w' None
           (2 ^ 48) refSum256_inj Hlim Hall).
Defined.

(** X24 at the sample file and the passphrase "hunter3". *)
Lemma other_passphrase_is_rejected_witness :
  encryptFile samplePassphrase samplePlaintext sampleEntropy 4 = Some (Renamed sampleFile) ∧
  decryptFile sampleOtherPassphrase sampleFile = Some (Failed errBadMAC []).
Proof.
  assert (Henc : encryptFile samplePassphrase samplePlaintext sampleEntropy 4
                 = Some (Renamed sampleFile)) by (vm_compute; reflexivity).
  destruct (keysOf sampleOtherPassphrase (decodeHeader (take headerSize sampleFile)))
    as [[sk' macKey']|] eqn:Hkeys; [|vm_compute in Hkeys; discriminate Hkeys].
  assert (Htag : copyArray 64 (blake2b512 macKey' (drop headerSize sampleFile))
                 ≠ Tag (decodeHeader (take headerSize sampleFile))).
  { vm_compute in Hkeys. injection Hkeys as <- <-. vm_compute. discriminate. }
  split; [exact Henc|].
  exact (other_passphrase_is_rejected _ _ _ _ _ _ sk' macKey' Henc Hkeys Htag).
Defined.
End further_runs.
